(** * fossen.js: a shallow embedding of the utility functions and their
      properties.

    Each module below embeds one group of functions of [src/fossen.js]:
    the JavaScript values they handle, then [unique], [concatUrls],
    [memoize], [override], [retry], the viewport geometry
    ([offset], [isOutOfView], [findClosestScrollableOffsetParent],
    [scrollY]), [ajax] and the timer wrappers [throttle] and [debounce];
    then the string and URL helpers ([getTypeName], [urlIsAbsolute],
    [urlIsLocal], [makeReadableUrlSafe], [replaceArray]), [find], the
    query strings ([objectToQueryString], [queryStringAsObject],
    [queryString]), the object helpers ([clone], [assign], [assignArray]),
    [nodeMatchesSelector] and [findParentNode], and [newError].

    Conventions of the embedding:
    - numbers are integers ([Z]); strings are sequences of code units below
      256 ([string]);
    - a plain object is given by the finite map of its own string-keyed
      properties; a read that finds none of them finds what
      [Object.prototype] provides under that name, an assignment under
      the name [__proto__] reaches the setter that [Object.prototype]
      provides, and a method such as [hasOwnProperty] or [constructor] is
      looked up on the object itself first (module [Property] and the
      modules that use it);
    - what the host does later (a timer fires, the document finishes
      loading, the transport calls a handler) is an explicit host event
      applied to the state the function left behind;
    - a call of a function supplied by the caller is recorded in a log, so
      that "how often" and "with which receiver and arguments" are
      statements about that log. *)

From stdpp Require Import base decidable option list strings gmap fin_maps.
From Stdlib Require Import ZArith Lia Ascii DecimalString.

Open Scope Z_scope.

(** ** JavaScript values *)

Module JS.

Inductive value : Type :=
| VUndefined
| VNull
| VBool (b : bool)
| VNum (n : Z)
| VStr (s : string)
| VObj (ref : nat)
| VNative (name : string).

#[global] Instance value_eq_dec : EqDecision value.
Proof. solve_decision. Defined.

(** [ToBoolean]: what [if (v)], [!v] and [a || b] look at. *)
Definition truthy (v : value) : bool :=
  match v with
  | VUndefined | VNull => false
  | VBool b => b
  | VNum n => negb (n =? 0)
  | VStr s => negb (String.eqb s "")
  | VObj _ | VNative _ => true
  end.

(** [a || b] *)
Definition or_else (a b : value) : value := if truthy a then a else b.

(** [ToString], as used for a property key and by [toString()]. *)
Definition to_string (v : value) : string :=
  match v with
  | VUndefined => "undefined"
  | VNull => "null"
  | VBool true => "true"
  | VBool false => "false"
  | VNum n => NilZero.string_of_int (Z.to_int n)
  | VStr s => s
  | VObj _ => "[object Object]"
  | VNative name => "function " +:+ name +:+ "() { [native code] }"
  end.

(** *** Objects used as lookup tables *)

(** The properties every object created by [{}] inherits from
    [Object.prototype]: a read [o[k]] that finds no own property [k] finds
    these. *)
Definition Object_prototype : list string :=
  ["constructor"; "hasOwnProperty"; "isPrototypeOf"; "propertyIsEnumerable";
   "toLocaleString"; "toString"; "valueOf"; "__proto__";
   "__defineGetter__"; "__defineSetter__";
   "__lookupGetter__"; "__lookupSetter__"].

Definition inherited (k : string) : bool := bool_decide (k ∈ Object_prototype).

(** [o[k]] *)
Definition get (o : gmap string value) (k : string) : value :=
  match o !! k with
  | Some v => v
  | None => if inherited k then VNative k else VUndefined
  end.

(** *** Calls *)

(** What a call can complete with: a value, or a thrown exception. *)
Inductive exn : Type :=
| TypeError
| JsError (message : string).

Inductive completion (A : Type) : Type :=
| Return (a : A)
| Throw (e : exn).
Arguments Return {A} a.
Arguments Throw {A} e.

(** A function supplied by the caller, applied to a receiver and an
    argument list; [W] is whatever state the function reads and writes. *)
Definition callable (W : Type) : Type :=
  value → list value → W → completion value * W.

(** One application of a caller-supplied function, as recorded. *)
Record call : Type := Call { receiver : value; arguments : list value }.

(** *** Strings *)

(** [s.length] *)
Definition str_length (s : string) : Z := Z.of_nat (String.length s).

(** [s[i]]: [None] stands for [undefined] (index out of range). *)
Definition char_at (s : string) (i : Z) : option ascii :=
  if i <? 0 then None else String.get (Z.to_nat i) s.

(** [s.substr(start)] and [s.substr(start, len)] for [start >= 0]. *)
Definition substr_from (s : string) (start : nat) : string :=
  String.substring start (String.length s - start) s.

Definition substr (s : string) (start : nat) (len : Z) : string :=
  String.substring start (Z.to_nat len) s.

(** White space and line terminators among the code units below 256:
    TAB, LF, VT, FF, CR, SP and NBSP. *)
Definition is_white_space (c : ascii) : bool :=
  bool_decide (Ascii.N_of_ascii c ∈ [9; 10; 11; 12; 13; 32; 160]%N).

Fixpoint trim_start (s : string) : string :=
  match s with
  | EmptyString => EmptyString
  | String c rest => if is_white_space c then trim_start rest else s
  end.

Fixpoint trim_end (s : string) : string :=
  match s with
  | EmptyString => EmptyString
  | String c rest =>
      match trim_end rest with
      | EmptyString => if is_white_space c then EmptyString
                       else String c EmptyString
      | rest' => String c rest'
      end
  end.

(** [s.trim()] *)
Definition trim (s : string) : string := trim_end (trim_start s).

End JS.

(** ** Assignment to a property of an ordinary object *)

Module Property.
Import JS.

(** The values that the setter of [__proto__] ignores: those that are
    neither an object nor [null]. *)
Definition ignored_as_prototype (v : value) : bool :=
  match v with
  | VUndefined | VBool _ | VNum _ | VStr _ => true
  | VNull | VObj _ | VNative _ => false
  end.

(** The assignment [o[k] = v] finds the setter that [Object.prototype]
    provides under the name [__proto__], unless [o] has an own property
    of that name. *)
Definition reaches_setter (o : gmap string value) (k : string) : bool :=
  bool_decide (k = "__proto__" ∧ o !! "__proto__" = None).

(** [o[k] = v] on an ordinary object [o] that inherits from
    [Object.prototype], given by its own properties, for a value [v] the
    setter ignores: under the name [__proto__] nothing is stored, under
    any other name the own property is written. *)
Definition write (o : gmap string value) (k : string) (v : value)
  : gmap string value :=
  if reaches_setter o k then o else <[k := v]> o.

(** [o[k] = v] for any value: [None] when the assignment replaces the
    prototype of [o] (the setter of [__proto__] given an object or
    [null]); from then on the own properties of [o] no longer determine
    what an assignment to [o] does. *)
Definition put (o : gmap string value) (k : string) (v : value)
  : option (gmap string value) :=
  if reaches_setter o k && negb (ignored_as_prototype v) then None
  else Some (write o k v).

(** The values that are certainly not functions: calling one of them is
    a [TypeError]. *)
Definition not_callable (v : value) : bool :=
  match v with
  | VUndefined | VNull | VBool _ | VNum _ | VStr _ => true
  | VObj _ | VNative _ => false
  end.

End Property.
Import JS.

(** ** The host's timers *)

Module Host.
Section WithCallback.
Context {C : Type}.

(** A pending timer: its handle, its delay and the function to call. *)
Record timer : Type := Timer { handle : positive; delay : Z; callback : C }.

(** Handles are positive numbers, never reused. *)
Record host : Type := Host { next_handle : positive; pending : list timer }.

Definition setTimeout (cb : C) (ms : Z) (t : host) : positive * host :=
  (next_handle t,
   Host (Pos.succ (next_handle t)) (pending t ++ [Timer (next_handle t) ms cb])).

Definition clearTimeout (hd : positive) (t : host) : host :=
  Host (next_handle t) (filter (λ tm, handle tm ≠ hd) (pending t)).

End WithCallback.
Arguments timer : clear implicits.
Arguments host : clear implicits.
End Host.

(** ** [unique] *)

Module Unique.

(** The body of the [forEach] callback, on the pair of the two closure
    variables [cache] and [uniqueArray]. The object [cache] is given by
    the set of its own property names, each of which holds [true].
    - [cache.hasOwnProperty] is looked up on [cache] first: once the name
      [hasOwnProperty] is an own property, what is called is [true], which
      is a [TypeError];
    - [cache[val] = true] under the name [__proto__] calls the setter
      inherited from [Object.prototype], which ignores [true]: no own
      property is created. *)
Definition visit (st : gset string * list value) (val : value)
  : completion (gset string * list value) :=
  let '(cache, uniqueArray) := st in
  if bool_decide ("hasOwnProperty" ∈ cache) then Throw TypeError
  else if bool_decide (to_string val ∈ cache) then Return st
  else Return (if bool_decide (to_string val = "__proto__") then cache
               else {[to_string val]} ∪ cache,
               uniqueArray ++ [val]).

(** [arr.forEach(...)]: an exception thrown by the callback ends the
    loop. *)
Fixpoint forEach (arr : list value) (st : gset string * list value)
  : completion (gset string * list value) :=
  match arr with
  | [] => Return st
  | val :: arr =>
      match visit st val with
      | Return st => forEach arr st
      | Throw e => Throw e
      end
  end.

Definition unique (arr : list value) : completion (list value) :=
  match forEach arr (∅, []) with
  | Return st => Return st.2
  | Throw e => Throw e
  end.

(** The claim's reading: position [i] is kept exactly when no earlier
    position carries the same string-coerced key. *)
Definition first_of_its_key (arr : list value) (i : nat) (v : value) : bool :=
  bool_decide (to_string v ∉ to_string <$> take i arr).

Definition select (arr : list value) (iv : nat * value) : option value :=
  if first_of_its_key arr iv.1 iv.2 then Some iv.2 else None.

Definition keep_first_occurrences (arr : list value) : list value :=
  omap (select arr) (imap pair arr).

End Unique.

(** ** [concatUrls] *)

Module ConcatUrls.

(** An argument of [concatUrls]: a fragment string or an array of
    fragment strings. *)
Inductive fragment_arg : Type :=
| AStr (s : string)
| AArr (l : list string).

(** [!fragment]: the empty string is the only falsy fragment. *)
Definition is_falsy (f : fragment_arg) : bool :=
  match f with
  | AStr s => String.eqb s ""
  | AArr _ => false
  end.

(** [fragment + '']: an array is joined with commas. *)
Definition coerce (f : fragment_arg) : string :=
  match f with
  | AStr s => s
  | AArr l => String.concat "," l
  end.

Definition slash : ascii := "/"%char.

Definition is_slash (c : option ascii) : bool :=
  bool_decide (c = Some slash).

(** [Array.isArray(fragments) ? fragments : slice(arguments)] *)
Definition select_fragments (arguments : list fragment_arg)
  : list fragment_arg :=
  match arguments with
  | AArr l :: _ => AStr <$> l
  | _ => arguments
  end.

(** The initial [cString]; [fragments[0].trim] fails when there is no
    first fragment, and an array has no [trim] method. The index uses
    the length of the untrimmed fragment. *)
Definition first_fragment (fragments : list fragment_arg)
  : completion string :=
  match fragments with
  | AStr f0 :: _ =>
      Return (if is_slash (char_at (trim f0) (str_length f0 - 1))
              then trim f0
              else trim f0 +:+ "/")
  | _ => Throw TypeError
  end.

(** The [forEach] callback; [fragment + ''.trim()] trims the empty
    literal, not the fragment. *)
Definition append_fragment (cString : string) (fragment : fragment_arg)
  : string :=
  if is_falsy fragment then cString
  else
    let fragment := coerce fragment +:+ trim "" in
    let fragment := if is_slash (char_at fragment 0)
                    then substr_from fragment 1 else fragment in
    cString +:+ (if is_slash (char_at fragment (str_length fragment - 1))
                 then fragment else fragment +:+ "/").

Definition concatUrls (arguments : list fragment_arg) : completion string :=
  let fragments := select_fragments arguments in
  match first_fragment fragments with
  | Throw e => Throw e
  | Return cString =>
      let cString := foldl append_fragment cString (tail fragments) in
      Return (substr cString 0 (str_length cString - 1))
  end.

End ConcatUrls.

(** ** Viewport geometry: [offset], [isOutOfView],
     [findClosestScrollableOffsetParent], [scrollY] *)

Module Geometry.

(** A rendered element as the functions read it: its identity, its box
    and scroll metrics, and its offset parent (the chain of offset
    parents of a rendered element is finite). *)
#[warnings="-register-all"]
Inductive element : Type :=
  Element {
    node : nat;
    offsetLeft : Z;
    offsetTop : Z;
    offsetWidth : Z;
    offsetHeight : Z;
    scrollLeft : Z;
    scrollTop : Z;
    scrollHeight : Z;
    offsetParent : option element
  }.

(** [document]: the metrics of [document.documentElement] and
    [document.body]. *)
Record document : Type :=
  Document {
    clientWidth : Z;
    clientHeight : Z;
    body : element
  }.

(** The object returned by [offset]. *)
Record offsets : Type :=
  Offsets {
    left : Z;
    top : Z;
    offsets_offsetLeft : Z;
    offsets_offsetTop : Z;
    windowLeft : Z;
    windowTop : Z;
    width : Z;
    height : Z
  }.

(** The four accumulators of the [while] loop of [offset]. *)
Record accumulators : Type :=
  Acc { acc_left : Z; acc_top : Z; acc_scrollLeft : Z; acc_scrollTop : Z }.

Fixpoint offset_loop (offsetParent0 : element) (a : accumulators)
  : accumulators :=
  match offsetParent offsetParent0 with
  | None => a
  | Some p =>
      offset_loop p
        {| acc_left := acc_left a + offsetLeft p;
           acc_top := acc_top a + offsetTop p;
           acc_scrollLeft := acc_scrollLeft a - scrollLeft p;
           acc_scrollTop := acc_scrollTop a - (scrollTop p - offsetTop p) |}
  end.

Definition offset (el : element) : offsets :=
  let a := offset_loop el
             {| acc_left := offsetLeft el;
                acc_top := offsetTop el;
                acc_scrollLeft := offsetLeft el;
                acc_scrollTop := offsetTop el |} in
  {| left := acc_left a;
     top := acc_top a;
     offsets_offsetLeft := offsetLeft el;
     offsets_offsetTop := offsetTop el;
     windowLeft := acc_scrollLeft a;
     windowTop := acc_scrollTop a;
     width := offsetWidth el;
     height := offsetHeight el |}.

(** [None] stands for the [undefined] returned when the chain ends. *)
Fixpoint findClosestScrollableOffsetParent (el : element) : option element :=
  match offsetParent el with
  | None => None
  | Some p =>
      if scrollHeight p >? offsetHeight p then Some p
      else findClosestScrollableOffsetParent p
  end.

Definition isOutOfView (doc : document) (el : element) (partially : bool)
  : bool :=
  let elOffset := offset el in
  if windowTop elOffset >? clientHeight doc then true
  else if windowLeft elOffset >? clientWidth doc then true
  else if windowTop elOffset + height elOffset <? 0 then true
  else if windowLeft elOffset + width elOffset <? 0 then true
  else if partially then
    if (windowTop elOffset + height elOffset >? clientHeight doc)
       || (windowTop elOffset <? 0) then true
    else if (windowLeft elOffset + width elOffset >? clientWidth doc)
            || (windowLeft elOffset <? 0) then true
    else false
  else false.

(** The one effect of [scrollY]: [scrollElement.scrollTop = scrollTo]. *)
Record assignment : Type :=
  Assign { assigned : element; scrollTo : Z }.

(** [padding] and [scrollElement] are optional ([None]: not passed).
    The result is the assignment performed, [None] when [scrollY]
    returns before assigning. *)
Definition scrollY (doc : document) (el : element) (padding : option Z)
           (scrollElement : option element) : option assignment :=
  if negb (isOutOfView doc el true) then None
  else
    let elOffset := offset el in
    let isPartiallyBelow :=
      windowTop elOffset + height elOffset >? clientHeight doc in
    let padding := default 0 padding in
    let scrollElement :=
      default (body doc) (findClosestScrollableOffsetParent el) in
    let scrollTo :=
      if isPartiallyBelow
      then ((offsets_offsetTop elOffset - clientHeight doc) + height elOffset)
           + padding
      else offsetTop el - padding in
    Some (Assign scrollElement scrollTo).

(** The [scrollTop] of every node of the page, by node identity, and
    what an assignment does to it. *)
Definition perform (w : option assignment) (scrollTops : nat → Z)
  : nat → Z :=
  match w with
  | None => scrollTops
  | Some a => λ n, if decide (n = node (assigned a)) then scrollTo a
                   else scrollTops n
  end.

(** The chain walked by both loops, nearest ancestor first. *)
Fixpoint offset_ancestors (el : element) : list element :=
  match offsetParent el with
  | None => []
  | Some p => p :: offset_ancestors p
  end.

Definition scrollable (p : element) : bool :=
  scrollHeight p >? offsetHeight p.

End Geometry.

(** ** [memoize] *)

Module Memoize.
Section WithWorld.
Context {W : Type}.

(** The variables of the closure created by one call of [memoize]. *)
Record closure : Type :=
  Closure {
    cache : gmap string value;
    undefinedResult : value;
    nullResult : value
  }.

(** [var cache = {}, undefinedResult, nullResult;] *)
Definition fresh : closure := Closure ∅ VUndefined VUndefined.

(** The closure variables, the state of the memoized function's world and
    the applications of [func] made so far. *)
Record heap : Type :=
  Heap { vars : closure; world : W; calls : list call }.

(** [func.apply(this, pub.toArray(arguments))] *)
Definition apply (func : callable W) (this : value) (args : list value)
           (h : heap) : completion value * heap :=
  let '(r, w) := func this args (world h) in
  (r, Heap (vars h) w (calls h ++ [Call this args])).

(** The function returned by [memoize(func)]; [keyArg] is the first
    argument, [undefined] when there is none. *)
Definition memoize (func : callable W) (this : value) (args : list value)
           (h : heap) : completion value * heap :=
  let keyArg := nth 0 args VUndefined in
  let c := vars h in
  if decide (keyArg = VUndefined) then
    if decide (undefinedResult c ≠ VUndefined)
    then (Return (undefinedResult c), h)
    else
      match apply func this args h with
      | (Return r, h') =>
          (Return r, Heap (Closure (cache c) r (nullResult c))
                          (world h') (calls h'))
      | (Throw e, h') => (Throw e, h')
      end
  else if decide (keyArg = VNull) then
    if decide (nullResult c ≠ VUndefined)
    then (Return (nullResult c), h)
    else
      match apply func this args h with
      | (Return r, h') =>
          (Return r, Heap (Closure (cache c) (undefinedResult c) r)
                          (world h') (calls h'))
      | (Throw e, h') => (Throw e, h')
      end
  else
    let keyArgString := to_string keyArg in
    if truthy (get (cache c) keyArgString)
    then (Return (get (cache c) keyArgString), h)
    else
      match apply func this args h with
      | (Return r, h') =>
          (Return r,
           Heap (Closure (<[keyArgString := r]> (cache c))
                         (undefinedResult c) (nullResult c))
                (world h') (calls h'))
      | (Throw e, h') => (Throw e, h')
      end.

(** Two calls in a row of the memoized function created by [memoize(func)];
    the result is the two completions and the number of applications of
    [func]. *)
Definition call_twice (func : callable W) (w : W)
           (this1 : value) (args1 : list value)
           (this2 : value) (args2 : list value)
  : completion value * completion value * nat :=
  let '(r1, h1) := memoize func this1 args1 (Heap fresh w []) in
  let '(r2, h2) := memoize func this2 args2 h1 in
  (r1, r2, length (calls h2)).

End WithWorld.
Arguments heap : clear implicits.

(** A function that ignores its receiver and arguments and returns [v]. *)
Definition constantly (v : value) : callable unit :=
  λ _ _ w, (Return v, w).

(** When a result counts as stored under the key [k]: any result but
    [undefined] for the keys [undefined] and [null]; otherwise a truthy
    result, under a key string that names no inherited property. *)
Definition cacheable (k r : value) : Prop :=
  if decide (k = VUndefined ∨ k = VNull) then r ≠ VUndefined
  else truthy r = true ∧ inherited (to_string k) = false.

End Memoize.

(** ** [override] *)

Module Override.
Section WithWorld.
Context {W : Type}.

(** The data fields of the state record handed to the overrider; its two
    methods are the instructions [InvokeCallOverridden] and
    [InvokeCallOriginal] below. *)
Record state : Type :=
  State {
    original : callable W;
    thisArg : value;
    argsAsArray : list value
  }.

Inductive forwarder : Type := callOverridden | callOriginal.

(** What a call of the wrapper is observed to do: it calls the overrider
    with a state record, and the forwarders apply [funcToOverride]. *)
Inductive event : Type :=
| Overrider (passed : state)
| Original (via : forwarder) (this : value) (args : list value).

Record heap : Type := Heap { world : W; trace : list event }.

(** What an overrider can do with the state record it received: assign
    its fields, call its two methods and use their completions (a thrown
    exception can be caught or passed on), act on the world, and finish by
    returning or throwing. *)
Inductive program : Type :=
| Finish (r : completion value)
| SetOriginal (f : callable W) (k : program)
| SetThisArg (v : value) (k : program)
| SetArgsAsArray (a : list value) (k : program)
| InvokeCallOverridden (k : completion value → program)
| InvokeCallOriginal (k : completion value → program)
| Perform (f : W → value * W) (k : value → program).

(** [funcToOverride.apply(this, args)] *)
Definition apply (funcToOverride : callable W) (via : forwarder)
           (this : value) (args : list value) (h : heap)
  : completion value * heap :=
  let '(r, w) := funcToOverride this args (world h) in
  (r, Heap w (trace h ++ [Original via this args])).

(** The overrider's run inside the wrapper. [funcToOverride],
    [originalThis] and [originalArgsAsArray] are the variables the two
    forwarders close over; [st] is the state record as it currently is. *)
Fixpoint exec (funcToOverride : callable W) (originalThis : value)
         (originalArgsAsArray : list value) (p : program) (st : state)
         (h : heap) : completion value * heap :=
  match p with
  | Finish r => (r, h)
  | SetOriginal f k =>
      exec funcToOverride originalThis originalArgsAsArray k
           (State f (thisArg st) (argsAsArray st)) h
  | SetThisArg v k =>
      exec funcToOverride originalThis originalArgsAsArray k
           (State (original st) v (argsAsArray st)) h
  | SetArgsAsArray a k =>
      exec funcToOverride originalThis originalArgsAsArray k
           (State (original st) (thisArg st) a) h
  | InvokeCallOverridden k =>
      let '(r, h') :=
        apply funcToOverride callOverridden (thisArg st) (argsAsArray st) h in
      exec funcToOverride originalThis originalArgsAsArray (k r) st h'
  | InvokeCallOriginal k =>
      let '(r, h') :=
        apply funcToOverride callOriginal originalThis originalArgsAsArray h in
      exec funcToOverride originalThis originalArgsAsArray (k r) st h'
  | Perform f k =>
      let '(v, w) := f (world h) in
      exec funcToOverride originalThis originalArgsAsArray (k v) st
           (Heap w (trace h))
  end.

(** The function [spy]: both copies of the arguments are taken from the
    same argument list. *)
Definition spy (funcToOverride : callable W) (overrider : state → program)
           (this : value) (arguments : list value) (h : heap)
  : completion value * heap :=
  let originalThis := this in
  let originalArgsAsArray := arguments in
  let st := State funcToOverride this arguments in
  exec funcToOverride originalThis originalArgsAsArray (overrider st) st
       (Heap (world h) (trace h ++ [Overrider st])).

(** An argument of [override]: a function, or some other value. *)
Inductive argument (A : Type) : Type :=
| NotAFunction (v : value)
| Function (f : A).
Arguments NotAFunction {A} v.
Arguments Function {A} f.

(** The function returned by [override], with its [__original]
    property. *)
Record wrapper : Type :=
  Wrapper {
    invoke : value → list value → heap → completion value * heap;
    __original : callable W
  }.

Definition override (funcToOverride : argument (callable W))
           (overrider : argument (state → program)) : completion wrapper :=
  match funcToOverride with
  | NotAFunction _ => Throw (JsError "funcToOverride must be a function")
  | Function F =>
      match overrider with
      | NotAFunction _ =>
          Throw (JsError "Overrider argument must be a function")
      | Function G => Return (Wrapper (spy F G) F)
      end
  end.

(** Events that a forwarder may have produced in a wrapper call made with
    receiver [this] and arguments [args]: a [callOriginal] event carries
    exactly these. *)
Definition forwarded (this : value) (args : list value) (e : event) : Prop :=
  match e with
  | Overrider _ => False
  | Original callOriginal t a => t = this ∧ a = args
  | Original callOverridden _ _ => True
  end.

End WithWorld.
Arguments state : clear implicits.
Arguments event : clear implicits.
Arguments heap : clear implicits.
Arguments program : clear implicits.
Arguments wrapper : clear implicits.
Arguments NotAFunction {A} v.
Arguments Function {A} f.
End Override.

(** ** [throttle] and [debounce] *)

Module Timers.
Import Host.

(** The receiver the host gives to a timer callback; it passes no
    arguments. *)
Definition window : value := VObj 0.

(** The two functions handed to [setTimeout]: the anonymous function of
    [throttle], closed over [self] and [args] of the wrapper call that
    created it, and [onTimeout] of [debounce], which reads its own [this]
    and [arguments]. *)
Inductive timer_callback : Type :=
| throttled (self : value) (args : list value)
| onTimeout.

Section WithWorld.
Context {W : Type}.

(** The closure variable [timeout] ([None]: [undefined]), the host's
    timers, the world of [func] and the applications of [func]. *)
Record heap : Type :=
  Heap {
    timeout : option positive;
    timers : host timer_callback;
    world : W;
    calls : list call
  }.

Definition fresh (w : W) : heap := Heap None (Host 1 []) w [].

(** [func.apply(this, args)]; its completion is not used. *)
Definition apply (func : callable W) (this : value) (args : list value)
           (h : heap) : heap :=
  Heap (timeout h) (timers h) (func this args (world h)).2
       (calls h ++ [Call this args]).

(** The wrapper returned by [throttle(func, throttleAmount)]. *)
Definition throttle (func : callable W) (throttleAmount : Z)
           (this : value) (arguments : list value) (h : heap) : heap :=
  match timeout h with
  | None =>
      let self := this in
      let args := arguments in
      let '(hd, t) := setTimeout (throttled self args) throttleAmount
                                 (timers h) in
      Heap (Some hd) t (world h) (calls h)
  | Some _ => h
  end.

(** The wrapper returned by [debounce(func, duration)]. *)
Definition debounce (func : callable W) (duration : Z)
           (this : value) (arguments : list value) (h : heap) : heap :=
  let t := match timeout h with
           | Some hd => clearTimeout hd (timers h)
           | None => timers h
           end in
  let '(hd, t) := setTimeout onTimeout duration t in
  Heap (Some hd) t (world h) (calls h).

(** A timer callback called with receiver [this] and arguments
    [arguments]: both assign [timeout = undefined], then apply [func]. *)
Definition run (func : callable W) (cb : timer_callback)
           (this : value) (arguments : list value) (h : heap) : heap :=
  let h := Heap None (timers h) (world h) (calls h) in
  match cb with
  | throttled self args => apply func self args h
  | onTimeout => apply func this arguments h
  end.

(** The host fires the pending timer [hd]. *)
Definition fire (func : callable W) (hd : positive) (h : heap) : heap :=
  match List.find (λ tm, bool_decide (handle tm = hd)) (pending (timers h)) with
  | None => h
  | Some tm =>
      run func (callback tm) window []
          (Heap (timeout h) (clearTimeout hd (timers h)) (world h) (calls h))
  end.

(** A series of calls of the debounced wrapper, each with its receiver
    and arguments. *)
Definition debounce_all (func : callable W) (duration : Z)
           (cs : list call) (h : heap) : heap :=
  foldl (λ h c, debounce func duration (receiver c) (arguments c) h) h cs.

(** What holds of the debounced wrapper's heap between timer firings: at
    most one timer is pending, the one whose handle is in [timeout]. *)
Definition quiet (duration : Z) (h : heap) : Prop :=
  timeout h = None ∧ pending (timers h) = []
  ∨ ∃ hd, timeout h = Some hd
          ∧ pending (timers h) = [Timer hd duration onTimeout].

End WithWorld.
Arguments heap : clear implicits.
End Timers.

(** ** [ajax] *)

Module Ajax.

(** What the host offers: the two request constructors, and whether
    [navigator.userAgent] matches [/MSIE 1/]. *)
Record environment : Type :=
  Environment {
    has_XDomainRequest : bool;
    has_XMLHttpRequest : bool;
    userAgent_MSIE_1 : bool
  }.

Inductive request_kind : Type := XDomainRequest | XMLHttpRequest.

(** [None] stands for the [undefined] returned when neither constructor
    is used. *)
Definition getRequest (env : environment) (cors : bool)
  : option request_kind :=
  if cors && has_XDomainRequest env && negb (userAgent_MSIE_1 env)
  then Some XDomainRequest
  else if has_XMLHttpRequest env then Some XMLHttpRequest
  else None.

(** The fields of [req] that the handlers read, as they are when a
    handler runs. Reading [req.responseText] can throw: an
    [XMLHttpRequest] whose [responseType] (one of the fields [ajax] passes
    on from [params]) is neither empty nor [text] throws an
    [InvalidStateError] there; hence a completion. *)
Record transport : Type :=
  Transport {
    req_status : value;
    req_response : value;
    req_responseText : completion value;
    req_readyState : Z
  }.

(** The five handlers [ajax] installs on [req]. *)
Inductive handler : Type :=
| onload | onreadystatechange | onerror | ontimeout | onabort.

(** The host calls a handler of [req], whose fields are then [now]. *)
Record host_event : Type := Fires { on : handler; now : transport }.

Section WithWorld.
Context {W : Type}.

(** The variable [called], the world of the callback and the calls of the
    callback made so far. *)
Record heap : Type := Heap { called : bool; world : W; calls : list call }.

(** [req.response || req.responseText || responseText]:
    [req.responseText] is read only when [req.response] is falsy. *)
Definition response_payload (responseText : value) (t : transport)
  : completion value :=
  if truthy (req_response t) then Return (req_response t)
  else
    match req_responseText t with
    | Return text => Return (or_else text responseText)
    | Throw e => Throw e
    end.

(** The arguments [cb(statusCode, responseText)] passes to the callback;
    [req] is the identity of the request object. Evaluating them throws
    when the read of [req.responseText] does. *)
Definition callback_arguments (req : nat) (statusCode responseText : value)
           (t : transport) : completion (list value) :=
  let status :=
    if decide (req_status t = VUndefined) then statusCode
    else req_status t in
  match response_payload responseText t with
  | Return payload => Return [status; payload; VObj req]
  | Throw e => Throw e
  end.

(** The function returned by [cb(statusCode, responseText)], called while
    the fields of [req] are [t]. When evaluating the arguments throws,
    the callback is not called; when the callback throws, it has been
    called; in both cases the assignment [called = true] after the call
    is not reached. *)
Definition cb (callback : callable W) (req : nat)
           (statusCode responseText : value) (t : transport) (h : heap)
  : completion () * heap :=
  if negb (called h) then
    match callback_arguments req statusCode responseText t with
    | Throw e => (Throw e, h)
    | Return args =>
        match callback VUndefined args (world h) with
        | (Return _, w) =>
            (Return (), Heap true w (calls h ++ [Call VUndefined args]))
        | (Throw e, w) =>
            (Throw e, Heap (called h) w (calls h ++ [Call VUndefined args]))
        end
    end
  else (Return (), Heap true (world h) (calls h)).

(** The handlers as [ajax] assigns them: [success = req.onload = cb(200)],
    [onreadystatechange] calls [success] in ready state 4, and the three
    failure handlers carry their sentinel string. *)
Definition handle (callback : callable W) (req : nat) (e : host_event)
           (h : heap) : completion () * heap :=
  let success := cb callback req (VNum 200) VUndefined in
  match on e with
  | onload => success (now e) h
  | onreadystatechange =>
      if decide (req_readyState (now e) = 4) then success (now e) h
      else (Return (), h)
  | onerror => cb callback req VNull (VStr "Error") (now e) h
  | ontimeout => cb callback req VNull (VStr "Timeout") (now e) h
  | onabort => cb callback req VNull (VStr "Abort") (now e) h
  end.

(** The request object [ajax] returns: which constructor made it, its
    identity, and the handlers installed on it. *)
Record request : Type :=
  Request {
    kind : request_kind;
    identity : nat;
    handlers : host_event → heap → completion () * heap
  }.

(** [ajax(params, callback)], [cors] being [params.cors] and [req] the
    identity of the object the constructor returns: [req.open] fails with
    a [TypeError] when [getRequest] returned [undefined]; otherwise the
    handlers are installed. The rest of the set-up (method, headers,
    pass-through fields, [send]) reads neither [called] nor the
    handlers; the [responseType] it passes on to [req] decides, in the
    host, whether a later read of [req.responseText] throws, which the
    transport of each event records. *)
Definition ajax (env : environment) (cors : bool) (callback : callable W)
           (req : nat) : completion request :=
  match getRequest env cors with
  | None => Throw TypeError
  | Some kind => Return (Request kind req (handle callback req))
  end.

(** [called = false], no call of the callback yet. *)
Definition start (w : W) : heap := Heap false w [].

(** The host delivers a series of events to the handlers of a request; an
    exception thrown out of a handler is reported by the host and the next
    event is delivered. *)
Definition deliver (r : request) (events : list host_event) (h : heap)
  : heap :=
  foldl (λ h e, (handlers r e h).2) h events.

(** The callback returns normally whatever it is given. *)
Definition returns_normally (callback : callable W) : Prop :=
  ∀ this args w, ∃ v w', callback this args w = (Return v, w').

End WithWorld.
Arguments heap : clear implicits.
Arguments request : clear implicits.

(** A completion event: any handler but [onreadystatechange] outside
    ready state 4. *)
Definition completes (e : host_event) : bool :=
  match on e with
  | onreadystatechange => bool_decide (req_readyState (now e) = 4)
  | _ => true
  end.

(** The status code and sentinel string each handler was created with. *)
Definition defaults (hd : handler) : value * value :=
  match hd with
  | onload | onreadystatechange => (VNum 200, VUndefined)
  | onerror => (VNull, VStr "Error")
  | ontimeout => (VNull, VStr "Timeout")
  | onabort => (VNull, VStr "Abort")
  end.

(** The call of the callback that the handler of event [e] makes on the
    request object [req], when the callback has not been called: none
    when evaluating the arguments throws. *)
Definition call_at (req : nat) (e : host_event) : option call :=
  match callback_arguments req (defaults (on e)).1 (defaults (on e)).2
                           (now e) with
  | Return args => Some (Call VUndefined args)
  | Throw _ => None
  end.

End Ajax.

(** ** [retry] *)

Module Retry.
Import Host.

(** [document.readyState] *)
Inductive ready_state : Type := loading | interactive | complete.

#[global] Instance ready_state_eq_dec : EqDecision ready_state.
Proof. solve_decision. Defined.

(** The deferred object created by [$.Deferred()], as [retry] uses it: it
    is settled by the first [resolve] or [reject] it receives, and later
    calls leave it as it is. [rejected args] carries the arguments
    [reject] was called with. *)
Inductive deferred_state : Type :=
| unsettled
| resolved (result : value)
| rejected (args : list value).

(** The calls made on the deferred object, in order. *)
Inductive settle_call : Type :=
| resolve_call (result : value)
| reject_call (args : list value).

(** The record [data] (its [func] and [deferred] members are kept
    apart). *)
Record data : Type :=
  Data {
    attemptsLeft : Z;
    delay : Z;
    afterLoad : bool;
    timeout : option positive
  }.

(** One retry sequence and its host: [data], the deferred object and the
    calls it received, how often [func] was called, the document's ready
    state, the pending timers and the one-shot [load] listeners, all of
    them bound to [retry(data)]. *)
Record system : Type :=
  System {
    dat : data;
    deferred : deferred_state;
    settle_calls : list settle_call;
    invocations : nat;
    readyState : ready_state;
    timers : host ();
    load_listeners : nat
  }.

(** [data.deferred.resolve(result)] *)
Definition resolve (result : value) (s : system) : system :=
  System (dat s)
         (match deferred s with unsettled => resolved result | d => d end)
         (settle_calls s ++ [resolve_call result])
         (invocations s) (readyState s) (timers s) (load_listeners s).

(** [data.deferred.reject()] *)
Definition reject (s : system) : system :=
  System (dat s)
         (match deferred s with unsettled => rejected [] | d => d end)
         (settle_calls s ++ [reject_call []])
         (invocations s) (readyState s) (timers s) (load_listeners s).

(** The function to retry takes no argument and may keep state of its
    own: to [retry] it is the series of its completions, [func i] being
    that of its call number [i] (from 0). *)
Definition retried : Type := nat → completion value.

(** The inner function [retry(data)]. After a successful call control
    leaves the [try] statement and reaches [data.deferred.reject()], as it
    does when no attempt is left. The [console.log] calls are left out. *)
Definition attempt (func : retried) (s : system) : system :=
  let d := dat s in
  let attemptsLeft' := attemptsLeft d - 1 in
  let outcome := func (invocations s) in
  let s := System (Data attemptsLeft' (delay d) (afterLoad d) (timeout d))
                  (deferred s) (settle_calls s) (S (invocations s))
                  (readyState s) (timers s) (load_listeners s) in
  match outcome with
  | Return result => reject (resolve result s)
  | Throw _ =>
      if afterLoad d && negb (bool_decide (readyState s = complete)) then
        System (dat s) (deferred s) (settle_calls s) (invocations s)
               (readyState s) (timers s) (S (load_listeners s))
      else if attemptsLeft' >? 0 then
        let t := match timeout d with
                 | Some hd => clearTimeout hd (timers s)
                 | None => timers s
                 end in
        let '(hd, t) := setTimeout () (delay d) t in
        System (Data attemptsLeft' (delay d) (afterLoad d) (Some hd))
               (deferred s) (settle_calls s) (invocations s)
               (readyState s) t (load_listeners s)
      else reject s
  end.

Definition defaultAttempts : Z := 5.
Definition defaultDelay : Z := 100.

(** [n || d] for an optional number [n] ([None]: not passed). *)
Definition or_default (n : option Z) (d : Z) : Z :=
  match n with
  | Some n => if n =? 0 then d else n
  | None => d
  end.

(** The record [data] and the fresh deferred object that
    [retry(functionToRetry, afterLoad, attempts, delay)] creates when the
    document's ready state is [rs]. *)
Definition start (afterLoad : value) (attempts delay : option Z)
           (rs : ready_state) : system :=
  let data :=
    Data (or_default attempts defaultAttempts)
         (or_default delay defaultDelay)
         (if bool_decide (rs = complete) then false else truthy afterLoad)
         None in
  System data unsettled [] 0 rs (Host 1 []) 0.

(** [retry(functionToRetry, afterLoad, attempts, delay)]: the state in
    which it returns the promise, after the first attempt. *)
Definition retry (functionToRetry : retried) (afterLoad : value)
           (attempts delay : option Z) (rs : ready_state) : system :=
  attempt functionToRetry (start afterLoad attempts delay rs).

(** What the host does to a waiting sequence: the document finishes
    loading (its ready state becomes [complete] and the one-shot [load]
    listeners run), or the timer that is due first fires. *)
Inductive host_event : Type := load | timer_fires.

Definition step (func : retried) (e : host_event) (s : system) : system :=
  match e with
  | load =>
      Nat.iter (load_listeners s) (attempt func)
               (System (dat s) (deferred s) (settle_calls s) (invocations s)
                       complete (timers s) 0)
  | timer_fires =>
      match pending (timers s) with
      | [] => s
      | _ :: rest =>
          attempt func
                  (System (dat s) (deferred s) (settle_calls s)
                          (invocations s) (readyState s)
                          (Host (next_handle (timers s)) rest)
                          (load_listeners s))
      end
  end.

(** The event a sequence is waiting for, if any. *)
Definition awaited (s : system) : option host_event :=
  if (0 <? load_listeners s)%nat then Some load
  else match pending (timers s) with
       | [] => None
       | _ :: _ => Some timer_fires
       end.

(** The host delivers, up to [n] times, the event the sequence is waiting
    for. *)
Fixpoint deliver (func : retried) (n : nat) (s : system) : system :=
  match n with
  | O => s
  | S n =>
      match awaited s with
      | None => s
      | Some e => deliver func n (step func e s)
      end
  end.

(** [func] throws on each of its first [n] calls. *)
Definition fails_first (func : retried) (n : nat) : Prop :=
  ∀ i, (i < n)%nat → ∃ e, func i = Throw e.

(** A sequence configured with [a] attempts that is about to call [func]
    for the time number [k] (from 0): nothing is settled and nothing is
    pending. *)
Definition at_attempt (a : Z) (k : nat) (s : system) : Prop :=
  attemptsLeft (dat s) = a - Z.of_nat k
  ∧ invocations s = k
  ∧ deferred s = unsettled
  ∧ settle_calls s = []
  ∧ pending (timers s) = []
  ∧ load_listeners s = 0%nat.

End Retry.

(** ** Sums along the chain of offset parents *)

Module OffsetSums.
Import Geometry.

(** The sum of a metric over a list of elements. *)
Definition total (metric : element → Z) (l : list element) : Z :=
  foldr (λ e acc, metric e + acc) 0 l.

(** The box of an element lies inside the viewport, on both axes. *)
Definition inside_viewport (doc : document) (o : offsets) : Prop :=
  0 ≤ windowTop o ∧ windowTop o + height o ≤ clientHeight doc
  ∧ 0 ≤ windowLeft o ∧ windowLeft o + width o ≤ clientWidth doc
  ∧ windowTop o ≤ clientHeight doc ∧ windowLeft o ≤ clientWidth doc
  ∧ 0 ≤ windowTop o + height o ∧ 0 ≤ windowLeft o + width o.

End OffsetSums.

(** ** Series of calls of the throttled wrapper *)

Module ThrottleSeries.
Import Host Timers.

(** A series of calls of the wrapper returned by [throttle], each with its
    receiver and arguments. *)
Definition throttle_all {W : Type} (func : callable W) (throttleAmount : Z)
           (cs : list call) (h : heap W) : heap W :=
  foldl (λ h c, throttle func throttleAmount (receiver c) (arguments c) h)
        h cs.

End ThrottleSeries.

(** ** Overriders that call no forwarder *)

Module OverrideSilent.
Import Override.

(** The overrider's program calls neither [state.callOverridden] nor
    [state.callOriginal], whatever its effects on the world return. *)
Fixpoint calls_no_forwarder {W : Type} (p : program W) : Prop :=
  match p with
  | Finish _ => True
  | SetOriginal _ k | SetThisArg _ k | SetArgsAsArray _ k =>
      calls_no_forwarder k
  | InvokeCallOverridden _ | InvokeCallOriginal _ => False
  | Perform _ k => ∀ v, calls_no_forwarder (k v)
  end.

End OverrideSilent.

(** ** The call of the callback made at an event *)

Module AjaxCalls.
Import Ajax.

(** The callback throws whatever it is given. *)
Definition always_throws {W : Type} (callback : callable W) : Prop :=
  ∀ this args w, ∃ e w', callback this args w = (Throw e, w').

End AjaxCalls.

(** ** Fragments with optional slashes *)

Module ConcatUrlsShapes.
Import ConcatUrls.

(** A fragment with no slash at either end, and not empty. *)
Definition plain (p : string) : Prop :=
  p ≠ "" ∧ char_at p 0 ≠ Some slash
  ∧ char_at p (str_length p - 1) ≠ Some slash.

Definition opt_slash (b : bool) : string := if b then "/" else "".

(** A plain fragment written with or without a leading and a trailing
    slash. *)
Record decorated : Type :=
  Decorated { lead : bool; core : string; trail : bool }.

Definition written (d : decorated) : string :=
  opt_slash (lead d) +:+ core d +:+ opt_slash (trail d).

End ConcatUrlsShapes.

(** ** [getTypeName] *)

Module TypeNames.

Definition comma : ascii := ","%char.
Definition period : ascii := "."%char.

(** [s.indexOf(c)] for a one-character [c], counted from [i]: [-1] when
    [c] does not occur. *)
Fixpoint indexOf_from (c : ascii) (s : string) (i : Z) : Z :=
  match s with
  | EmptyString => -1
  | String x rest => if decide (x = c) then i else indexOf_from c rest (i + 1)
  end.

Definition indexOf (s : string) (c : ascii) : Z := indexOf_from c s 0.

(** [s.lastIndexOf(c)]: [found] is the last index seen so far. *)
Fixpoint lastIndexOf_from (c : ascii) (s : string) (i found : Z) : Z :=
  match s with
  | EmptyString => found
  | String x rest =>
      lastIndexOf_from c rest (i + 1) (if decide (x = c) then i else found)
  end.

Definition lastIndexOf (s : string) (c : ascii) : Z :=
  lastIndexOf_from c s 0 (-1).

(** [commaPoint] is [-1] when there is no comma, and [substr(0, -1)] is
    the empty string; [lastPeriod + 1] is never negative. *)
Definition getTypeName (typeString : string) : string :=
  let commaPoint := indexOf typeString comma in
  let namespace := substr typeString 0 commaPoint in
  let lastPeriod := lastIndexOf namespace period in
  substr_from namespace (Z.to_nat (lastPeriod + 1)).

(** [c] occurs in [s]. *)
Fixpoint occurs (c : ascii) (s : string) : bool :=
  match s with
  | EmptyString => false
  | String x rest => bool_decide (x = c) || occurs c rest
  end.

End TypeNames.

(** ** [urlIsAbsolute] and [urlIsLocal] *)

Module Urls.

(** [toLowerCase] on one code unit below 256: the letters [A] to [Z] and
    the capital letters of the range 192 to 222 (but 215, the
    multiplication sign) are 32 below their small letter. *)
Definition to_lower (c : ascii) : ascii :=
  let n := Ascii.N_of_ascii c in
  if ((65 <=? n) && (n <=? 90) || (192 <=? n) && (n <=? 214)
      || (216 <=? n) && (n <=? 222))%N
  then Ascii.ascii_of_N (n + 32)
  else c.

(** [s.toLowerCase()] *)
Fixpoint toLowerCase (s : string) : string :=
  match s with
  | EmptyString => EmptyString
  | String c rest => String (to_lower c) (toLowerCase rest)
  end.

(** [s.indexOf(p) === 0] *)
Definition starts_with (s p : string) : bool := String.prefix p s.

Definition urlIsAbsolute (url : string) (noProtocolImpliesAbsolute : bool)
  : bool :=
  let normalizedUrl := toLowerCase url in
  if noProtocolImpliesAbsolute && starts_with normalizedUrl "//" then true
  else starts_with normalizedUrl "http://"
       || starts_with normalizedUrl "https://"
       || starts_with normalizedUrl "file://".

(** The two members of [location] that [urlIsLocal] reads. *)
Record location : Type := Location { protocol : string; host : string }.

(** [urlIsLocal] calls [urlIsAbsolute] without its second argument. *)
Definition urlIsLocal (loc : location) (url : string) : bool :=
  if negb (urlIsAbsolute url false) then true
  else
    let normalizedUrl := toLowerCase url in
    let locationDomain :=
      toLowerCase (protocol loc +:+ "//" +:+ host loc +:+ "/") in
    starts_with normalizedUrl locationDomain.

(** [location.protocol + '//' + location.host] *)
Definition origin (loc : location) : string :=
  protocol loc +:+ "//" +:+ host loc.

End Urls.

(** ** [replaceArray] and [makeReadableUrlSafe] *)

Module UrlSafe.

(** A replacement as [makeReadableUrlSafe] writes them: a regular
    expression with the [g] flag that matches one character of a class,
    and the text every match is replaced with (a text without [$]). *)
Record replacement : Type :=
  Replacement { matches : ascii → bool; replace_with : string }.

(** [str.replace(/[class]/g, text)] *)
Fixpoint replace (r : replacement) (str : string) : string :=
  match str with
  | EmptyString => EmptyString
  | String c rest =>
      (if matches r c then replace_with r else String c EmptyString)
      +:+ replace r rest
  end.

Definition replaceArray (str : string) (replacements : list replacement)
  : string :=
  foldl (λ str r, replace r str) str replacements.

Definition code (c : ascii) : N := Ascii.N_of_ascii c.

Definition is_char (n : N) (c : ascii) : bool := (code c =? n)%N.

(** [[a-z0-9\-_]] under the [i] flag: letters of both cases, digits, the
    hyphen and the underscore. *)
Definition is_url_safe (c : ascii) : bool :=
  ((97 <=? code c) && (code c <=? 122)
   || (65 <=? code c) && (code c <=? 90)
   || (48 <=? code c) && (code c <=? 57)
   || (code c =? 45) || (code c =? 95))%N.

(** The table of [makeReadableUrlSafe]: white space, the period, the six
    Scandinavian letters, and last every character that is not safe. *)
Definition replacements : list replacement :=
  [ Replacement is_white_space "-";
    Replacement (is_char 46) "_";
    Replacement (is_char 230) "ae";
    Replacement (is_char 198) "AE";
    Replacement (is_char 248) "o";
    Replacement (is_char 216) "O";
    Replacement (is_char 229) "a";
    Replacement (is_char 197) "A";
    Replacement (λ c, negb (is_url_safe c)) "" ].

Definition makeReadableUrlSafe (unsafeString : string) : string :=
  replaceArray (trim unsafeString) replacements.

(** Every character of [s] satisfies [p]. *)
Fixpoint all_chars (p : ascii → bool) (s : string) : bool :=
  match s with
  | EmptyString => true
  | String c rest => p c && all_chars p rest
  end.

(** What becomes of one character: white space gives a hyphen, the period
    an underscore, the Scandinavian letters their transcription; other
    safe characters stay and all other characters go. *)
Definition translate (c : ascii) : string :=
  if is_white_space c then "-"
  else if is_char 46 c then "_"
  else if is_char 230 c then "ae"
  else if is_char 198 c then "AE"
  else if is_char 248 c then "o"
  else if is_char 216 c then "O"
  else if is_char 229 c then "a"
  else if is_char 197 c then "A"
  else if is_url_safe c then String c EmptyString
  else EmptyString.

Fixpoint translate_all (s : string) : string :=
  match s with
  | EmptyString => EmptyString
  | String c rest => translate c +:+ translate_all rest
  end.

End UrlSafe.

(** ** [find] *)

Module Find.
Section WithWorld.
Context {W : Type}.

(** The loop of [arr.some] with the function [find] passes to it: the
    callback is called with [thisArg] as receiver and the element, its
    index and the array as arguments; a truthy result stores the element
    in [item] and stops the loop. [arr] is the array object, [rest] the
    elements from index [idx] on; the calls of the callback are
    recorded. *)
Fixpoint some (callback : callable W) (thisArg arr : value) (idx : nat)
         (rest : list value) (w : W) (log : list call)
  : completion value * W * list call :=
  match rest with
  | [] => (Return VUndefined, w, log)
  | el :: rest =>
      let args := [el; VNum (Z.of_nat idx); arr] in
      match callback thisArg args w with
      | (Throw e, w') => (Throw e, w', log ++ [Call thisArg args])
      | (Return r, w') =>
          if truthy r then (Return el, w', log ++ [Call thisArg args])
          else some callback thisArg arr (S idx) rest w'
                    (log ++ [Call thisArg args])
      end
  end.

(** [find(arr, callback, thisArg)]: [arr] is the array object and
    [elements] its elements; the result is [item]. *)
Definition find (arr : value) (elements : list value)
           (callback : callable W) (thisArg : value) (w : W)
  : completion value * W * list call :=
  some callback thisArg arr 0 elements w [].

(** The callback returns normally and the truthiness of what it returns
    is [p] of the element. *)
Definition decides (p : value → bool) (callback : callable W) : Prop :=
  ∀ this el idx arr w,
    ∃ r w', callback this [el; idx; arr] w = (Return r, w')
            ∧ truthy r = p el.

End WithWorld.

(** The elements up to the first one that satisfies [p], that one
    included. *)
Fixpoint through_first (p : value → bool) (l : list value) : list value :=
  match l with
  | [] => []
  | x :: rest => if p x then [x] else x :: through_first p rest
  end.

End Find.

(** ** [objectToQueryString], [queryStringAsObject], [queryString] *)

Module QueryStrings.
Export TypeNames.
Import Property.

Definition ampersand : ascii := "&"%char.
Definition equals : ascii := "="%char.

(** [s.split(c)] for a one-character separator [c]: the pieces between
    the occurrences of [c], one piece when there is none. *)
Fixpoint split (c : ascii) (s : string) : list string :=
  match s with
  | EmptyString => [EmptyString]
  | String x rest =>
      if decide (x = c) then EmptyString :: split c rest
      else match split c rest with
           | piece :: pieces => String x piece :: pieces
           | [] => [String x EmptyString]
           end
  end.

Section WithHost.

(** The host's [encodeURIComponent] and [decodeURIComponent] on strings;
    the second one throws on a malformed escape sequence. *)
Variable encodeURIComponent : string → string.
Variable decodeURIComponent : string → completion string.

(** [obj] is given by its own enumerable properties in the order of
    [Object.keys]; [prefix] is optional ([None]: not passed). *)
Definition objectToQueryString (obj : list (string * value))
           (prefix : option string) : string :=
  let converter := λ kv : string * value,
    kv.1 +:+ "=" +:+ encodeURIComponent (to_string kv.2) in
  let prefix := match prefix with
                | Some p => if String.eqb p "" then "?" else p
                | None => "?"
                end in
  prefix +:+ String.concat "&" (converter <$> obj).

(** One turn of the [for] loop; [val] is [undefined] when the piece has
    no equals sign, and [decodeURIComponent(undefined)] decodes the
    string ["undefined"]. The key is decoded before the value. What is
    assigned is a string, so under the key [__proto__] nothing is
    stored. *)
Definition store (qObj : gmap string value) (piece : string)
  : completion (gmap string value) :=
  let innerSplit := split equals piece in
  let key := hd EmptyString innerSplit in
  let val := innerSplit !! 1%nat in
  match decodeURIComponent key with
  | Throw e => Throw e
  | Return k =>
      match decodeURIComponent (default "undefined" val) with
      | Throw e => Throw e
      | Return v => Return (write qObj k (VStr v))
      end
  end.

Fixpoint store_all (qObj : gmap string value) (pieces : list string)
  : completion (gmap string value) :=
  match pieces with
  | [] => Return qObj
  | piece :: pieces =>
      match store qObj piece with
      | Throw e => Throw e
      | Return qObj => store_all qObj pieces
      end
  end.

(** [queryStringAsObject()], [search] being [location.search]. *)
Definition queryStringAsObject (search : string)
  : completion (gmap string value) :=
  if String.eqb search "" || (str_length search <=? 1) then Return ∅
  else store_all ∅ (split ampersand (substr_from search 1)).

(** [queryString(queryParam)] *)
Definition queryString (search queryParam : string) : completion value :=
  match queryStringAsObject search with
  | Throw e => Throw e
  | Return qObj => Return (get qObj queryParam)
  end.

(** A property that survives the trip through a query string: its key is
    not [__proto__], holds no separator and decodes to itself, and its
    encoded value holds no separator and decodes to the value's string. *)
Definition survives (kv : string * value) : Prop :=
  kv.1 ≠ "__proto__"
  ∧ occurs ampersand kv.1 = false
  ∧ occurs equals kv.1 = false
  ∧ decodeURIComponent kv.1 = Return kv.1
  ∧ occurs ampersand (encodeURIComponent (to_string kv.2)) = false
  ∧ occurs equals (encodeURIComponent (to_string kv.2)) = false
  ∧ decodeURIComponent (encodeURIComponent (to_string kv.2))
    = Return (to_string kv.2).

End WithHost.

End QueryStrings.

(** ** [clone], [assign], [assignArray] *)

Module Objects.
Import Property.

(** What a function of this module ends with. [Undetermined]: the code
    went on in a way that the own properties of the objects do not
    determine: it called a function stored in one of them, or it replaced
    the prototype of the object it writes to. *)
Inductive outcome (A : Type) : Type :=
| Done (a : A)
| Raised (e : exn)
| Undetermined.
Arguments Done {A} a.
Arguments Raised {A} e.
Arguments Undetermined {A}.

(** [obj.constructor()]: the property is looked up on [obj] first. An
    object without an own property of that name finds [Object], and
    [Object()] is a new empty object; an own property that is not a
    function cannot be called. *)
Definition construct (obj : gmap string value)
  : outcome (gmap string value) :=
  match obj !! "constructor" with
  | None => Done ∅
  | Some v => if not_callable v then Raised TypeError else Undetermined
  end.

(** [source.hasOwnProperty(key)]: the method is looked up on [source]
    first, in the same way. *)
Definition hasOwnProperty (source : gmap string value) (key : string)
  : outcome bool :=
  match source !! "hasOwnProperty" with
  | None => Done (bool_decide (is_Some (source !! key)))
  | Some v => if not_callable v then Raised TypeError else Undetermined
  end.

(** [keyCloner(target, source, key)] *)
Definition keyCloner (target source : gmap string value) (key : string)
  : outcome (gmap string value) :=
  match hasOwnProperty source key with
  | Done true =>
      match source !! key with
      | Some v =>
          match put target key v with
          | Some target => Done target
          | None => Undetermined
          end
      | None => Done target
      end
  | Done false => Done target
  | Raised e => Raised e
  | Undetermined => Undetermined
  end.

(** [keys.forEach(keyCloner.bind(undefined, target, source))] *)
Fixpoint forEach_key (target source : gmap string value)
         (keys : list string) : outcome (gmap string value) :=
  match keys with
  | [] => Done target
  | key :: keys =>
      match keyCloner target source key with
      | Done target => forEach_key target source keys
      | Raised e => Raised e
      | Undetermined => Undetermined
      end
  end.

(** [Object.keys(source).forEach(keyCloner.bind(undefined, target, source))];
    the keys are taken in the order of the map's listing. *)
Definition copy_keys (target source : gmap string value)
  : outcome (gmap string value) :=
  forEach_key target source (map_to_list source).*1.

(** [mergeObjects.forEach(...)] *)
Fixpoint merge (copy : gmap string value)
         (mergeObjects : list (gmap string value))
  : outcome (gmap string value) :=
  match mergeObjects with
  | [] => Done copy
  | mergeObject :: mergeObjects =>
      match copy_keys copy mergeObject with
      | Done copy => merge copy mergeObjects
      | Raised e => Raised e
      | Undetermined => Undetermined
      end
  end.

(** [clone(obj, ...mergeObjects)] on ordinary objects, each given by its
    own enumerable properties. *)
Definition clone (obj : gmap string value)
           (mergeObjects : list (gmap string value))
  : outcome (gmap string value) :=
  match construct obj with
  | Done copy =>
      match copy_keys copy obj with
      | Done copy => merge copy mergeObjects
      | Raised e => Raised e
      | Undetermined => Undetermined
      end
  | Raised e => Raised e
  | Undetermined => Undetermined
  end.

(** An object that has none of the three own properties which [clone]
    treats specially. *)
Definition ordinary (m : gmap string value) : Prop :=
  m !! "constructor" = None
  ∧ m !! "hasOwnProperty" = None
  ∧ m !! "__proto__" = None.

(** The last object of a list that has the key [k]. *)
Definition rightmost_with (k : string) (objs : list (gmap string value))
  : option (gmap string value) :=
  List.find (λ m, bool_decide (is_Some (m !! k))) (reverse objs).

Section WithWorld.
Context {W : Type}.

(** [assign(target, source, mutator, filter)]: the target is an ordinary
    object given by its own properties, [source] is given by its own
    enumerable properties in the order of [Object.keys]; [mutator] and
    [filter] are [None] when they are not functions. The target is
    changed in place, so what was assigned before an exception stays. *)
Fixpoint assign (target : gmap string value) (source : list (string * value))
         (mutator filter : option (callable W)) (w : W)
  : outcome () * gmap string value * W :=
  match source with
  | [] => (Done (), target, w)
  | (key, value) :: source =>
      let filtered :=
        match filter with
        | Some f =>
            match f VUndefined [VStr key; value] w with
            | (Return r, w) => (Return (truthy r), w)
            | (Throw e, w) => (Throw e, w)
            end
        | None => (Return true, w)
        end in
      match filtered with
      | (Throw e, w) => (Raised e, target, w)
      | (Return false, w) => assign target source mutator filter w
      | (Return true, w) =>
          let mutated :=
            match mutator with
            | Some m => m VUndefined [VStr key; value] w
            | None => (Return value, w)
            end in
          match mutated with
          | (Throw e, w) => (Raised e, target, w)
          | (Return value, w) =>
              match put target key value with
              | Some target => assign target source mutator filter w
              | None => (Undetermined, target, w)
              end
          end
      end
  end.

(** The loop of [assignArray(arr, keyMutator, valueMutator)] from index
    [idx] on, over an array without holes; [arr] is the array object, and
    a mutator is [None] when the argument is falsy. The key is computed
    before the value, and what is stored is the index: the computed
    [value] is not used. The index is a number, so under the key
    [__proto__] nothing is stored. *)
Fixpoint assignArray_from (obj : gmap string value) (arr : value)
         (idx : nat) (rest : list value)
         (keyMutator valueMutator : option (callable W)) (w : W)
  : completion (gmap string value) * W :=
  match rest with
  | [] => (Return obj, w)
  | item :: rest =>
      let index := VNum (Z.of_nat idx) in
      let key :=
        match keyMutator with
        | Some f => f VUndefined [item; index; arr] w
        | None => (Return item, w)
        end in
      match key with
      | (Throw e, w) => (Throw e, w)
      | (Return key, w) =>
          let value :=
            match valueMutator with
            | Some f => f VUndefined [item; index; arr] w
            | None => (Return index, w)
            end in
          match value with
          | (Throw e, w) => (Throw e, w)
          | (Return _, w) =>
              assignArray_from (write obj (to_string key) index) arr (S idx)
                               rest keyMutator valueMutator w
          end
      end
  end.

Definition assignArray (arr : value) (elements : list value)
           (keyMutator valueMutator : option (callable W)) (w : W)
  : completion (gmap string value) * W :=
  assignArray_from ∅ arr 0 elements keyMutator valueMutator w.

(** An optional callback that, when given, returns normally. *)
Definition harmless (f : option (callable W)) : Prop :=
  match f with
  | Some f => Ajax.returns_normally f
  | None => True
  end.

End WithWorld.

(** The pairs of key and index that [assignArray] stores without a
    [keyMutator], from index [idx] on. *)
Definition indexed_from (idx : nat) (elements : list value)
  : list (string * value) :=
  imap (λ i item, (to_string item, VNum (Z.of_nat (idx + i)))) elements.

End Objects.

(** ** [nodeMatchesSelector], [findParentNode] *)

Module Dom.

(** A DOM element as the two functions read it: its identity, the four
    properties a matcher is looked for under ([None] when the property is
    missing or falsy, otherwise the function, applied to the selector with
    the element as receiver), and its parent element (the chain of parents
    is finite). *)
#[warnings="-register-all"]
Inductive element : Type :=
  Element {
    node : nat;
    matches : option (value → completion value);
    msMatchesSelector : option (value → completion value);
    webkitMatchesSelector : option (value → completion value);
    mozMatchesSelector : option (value → completion value);
    parentElement : option element
  }.

(** The [selector] argument of [findParentNode]: a [Node], or any other
    value. *)
Inductive selector : Type :=
| ANode (n : element)
| Other (v : value).

(** [a || b] on optional functions. *)
Definition or_matcher (a b : option (value → completion value))
  : option (value → completion value) :=
  match a with
  | Some f => Some f
  | None => b
  end.

(** [node] is [None] when the argument is falsy. *)
Definition nodeMatchesSelector (node : option element) (selector : value)
  : completion value :=
  match node with
  | None => Throw (JsError "Node argument must be defined")
  | Some node =>
      let matcher :=
        or_matcher (matches node)
          (or_matcher (msMatchesSelector node)
             (or_matcher (webkitMatchesSelector node)
                (mozMatchesSelector node))) in
      match matcher with
      | None => Throw (JsError "No node matcher found")
      | Some matcher => matcher selector
      end
  end.

(** The condition of the [if] in the loop of [findParentNode]; [===] on
    elements compares identities. *)
Definition condition (parent : element) (selector : selector)
  : completion bool :=
  match selector with
  | ANode s => Return (bool_decide (node parent = node s))
  | Other v =>
      match nodeMatchesSelector (Some parent) v with
      | Return r => Return (truthy r)
      | Throw e => Throw e
      end
  end.

(** [None] stands for the [undefined] returned when the chain ends. *)
Fixpoint findParentNode (node0 : element) (selector : selector)
  : completion (option element) :=
  match parentElement node0 with
  | None => Return None
  | Some parent =>
      match condition parent selector with
      | Throw e => Throw e
      | Return true => Return (Some parent)
      | Return false => findParentNode parent selector
      end
  end.

(** The chain of parent elements, nearest first. *)
Fixpoint ancestors (node0 : element) : list element :=
  match parentElement node0 with
  | None => []
  | Some parent => parent :: ancestors parent
  end.

End Dom.

(** ** [newError] *)

Module Errors.
Export TypeNames.

Definition newline : ascii := "010"%char.

(** [s.substr(start)] for any integer [start]: a negative one counts
    from the end of the string. *)
Definition substr_at (s : string) (start : Z) : string :=
  substr_from s
    (Z.to_nat (if start <? 0 then Z.max (str_length s + start) 0 else start)).

(** The new value of [err.stack]. *)
Definition cleanStack (stack : string) : string :=
  let firstNewLine := indexOf stack newline in
  let secondNewLine :=
    indexOf (substr_at stack (firstNewLine + 1)) newline in
  substr stack 0 firstNewLine
  +:+ substr_at stack (secondNewLine + 1 + firstNewLine).

(** The error object: [data] and [stack] are [None] when the object has
    no such property. *)
Record error : Type :=
  Error { message : string; data : option value; stack : option string }.

(** One call of a method of [console]. *)
Record logged : Type := Logged { method : string; logged_args : list value }.

(** [newError(message, data, logData)]. The host decides whether
    [console.error] exists and which [stack] a new [Error] has
    ([fresh_stack], [None] where errors have none); [console] is what was
    logged so far. *)
Definition newError (console_has_error : bool) (fresh_stack : option string)
           (message data logData : value) (console : list logged)
  : error * list logged :=
  let err_message :=
    match message with VUndefined => "" | _ => to_string message end in
  let err_data := if truthy data then Some data else None in
  let logData := if decide (logData = VBool false) then false else true in
  let console :=
    if logData
    then if console_has_error
         then console ++ [Logged "error" [message; data]]
         else console ++ [Logged "log" [message; data]]
    else console in
  let err_stack :=
    match fresh_stack with
    | Some stack =>
        if truthy (VStr stack) then Some (cleanStack stack) else Some stack
    | None => None
    end in
  (Error err_message err_data err_stack, console).

End Errors.

(** * Properties *)

(** ** [unique] keeps the first occurrence of every key *)

Section UniqueFacts.
Import Unique.

Lemma forEach_selects (rest seen : list value) (cache : gset string)
      (acc : list value) :
  "hasOwnProperty" ∉ to_string <$> (seen ++ rest) →
  "__proto__" ∉ to_string <$> (seen ++ rest) →
  (∀ k, k ∈ cache ↔ k ∈ to_string <$> seen) →
  ∃ cache',
    forEach rest (cache, acc)
    = Return (cache',
              acc ++ omap (select (seen ++ rest))
                          (imap (λ i, pair (length seen + i)%nat) rest)).
Proof.
  revert seen cache acc.
  induction rest as [|v rest IH]; intros seen cache acc Hhas Hproto Hdom.
  - exists cache. simpl. by rewrite app_nil_r.
  - cbn [forEach imap omap list_omap].
    unfold select at 1, first_of_its_key. cbn [fst snd].
    rewrite Nat.add_0_r, take_app_length.
    assert (Hnext : seen ++ v :: rest = (seen ++ [v]) ++ rest)
      by (by rewrite <- app_assoc).
    assert (Hv : to_string v ≠ "__proto__").
    { intros Heq. apply Hproto. rewrite fmap_app, elem_of_app. right.
      rewrite <- Heq. apply list_elem_of_fmap_2. by left. }
    assert (Hshift :
      imap (λ i, pair (length (seen ++ [v]) + i)%nat) rest
      = imap ((λ i, pair (B := value) (length seen + i)%nat) ∘ S) rest).
    { apply imap_ext. intros i x _. cbn. rewrite length_app. cbn.
      f_equal. lia. }
    unfold visit.
    rewrite (bool_decide_false ("hasOwnProperty" ∈ cache)).
    2:{ rewrite Hdom. intros Hin. apply Hhas.
        rewrite fmap_app, elem_of_app. by left. }
    destruct (bool_decide_reflect (to_string v ∈ cache)) as [Hin|Hout].
    + rewrite (bool_decide_false (to_string v ∉ to_string <$> seen))
        by (rewrite <- Hdom; tauto).
      destruct (IH (seen ++ [v]) cache acc) as [cache' ->].
      * by rewrite <- Hnext.
      * by rewrite <- Hnext.
      * intros k. rewrite fmap_app, elem_of_app, <- Hdom. cbn.
        rewrite list_elem_of_singleton. split; [tauto|].
        intros [?| ->]; tauto.
      * exists cache'. by rewrite <- Hnext, Hshift.
    + rewrite (bool_decide_true (to_string v ∉ to_string <$> seen))
        by (rewrite <- Hdom; tauto).
      rewrite (bool_decide_false (to_string v = "__proto__")) by done.
      destruct (IH (seen ++ [v]) ({[to_string v]} ∪ cache) (acc ++ [v]))
        as [cache' ->].
      * by rewrite <- Hnext.
      * by rewrite <- Hnext.
      * intros k. rewrite fmap_app, elem_of_app, <- Hdom. cbn.
        rewrite list_elem_of_singleton, elem_of_union, elem_of_singleton.
        tauto.
      * exists cache'. by rewrite <- Hnext, <- !app_assoc, Hshift.
Qed.

(** C6, the part that holds: on an array none of whose elements has the
    string [hasOwnProperty] or [__proto__], [unique] returns, in input
    order, exactly the elements that are the first occurrence of their
    string-coerced key. *)
Theorem unique_keeps_first_occurrences (arr : list value) :
  "hasOwnProperty" ∉ to_string <$> arr →
  "__proto__" ∉ to_string <$> arr →
  unique arr = Return (keep_first_occurrences arr).
Proof.
  intros Hhas Hproto. unfold unique, keep_first_occurrences.
  destruct (forEach_selects arr [] ∅ [] Hhas Hproto) as [cache' ->].
  - intros k. cbn. rewrite elem_of_nil. set_solver.
  - reflexivity.
Qed.

(** [unique([1,1,2,"1"])] is [[1,2]]: the number [1] and the string ["1"]
    share the key ["1"]. *)
Lemma unique_keeps_first_occurrences_witness :
  ("hasOwnProperty" ∉ to_string <$> [VNum 1; VNum 1; VNum 2; VStr "1"])
  ∧ ("__proto__" ∉ to_string <$> [VNum 1; VNum 1; VNum 2; VStr "1"])
  ∧ to_string (VNum 1) = to_string (VStr "1")
  ∧ unique [VNum 1; VNum 1; VNum 2; VStr "1"] = Return [VNum 1; VNum 2].
Proof.
  assert (H : ∀ k, k = "hasOwnProperty" ∨ k = "__proto__" →
                   k ∉ to_string <$> [VNum 1; VNum 1; VNum 2; VStr "1"]).
  { intros k Hk Hin. apply list_elem_of_fmap in Hin as (x & Hx & Hin).
    rewrite !elem_of_cons in Hin.
    destruct Hin as [->|[->|[->|[->|Hin]]]];
      [destruct Hk as [->| ->]; vm_compute in Hx; discriminate ..|].
    by apply elem_of_nil in Hin. }
  split; [apply H; by left|]. split; [apply H; by right|].
  split; [reflexivity|].
  exact (unique_keeps_first_occurrences _ (H _ (or_introl eq_refl))
                                        (H _ (or_intror eq_refl))).
Defined.

(** C6, the calls that contradict it. After an element with the string
    [hasOwnProperty] the next test [cache.hasOwnProperty(val)] calls
    [true]: [unique(["hasOwnProperty", "a"])] throws a [TypeError], where
    the first occurrences are both elements. And an element with the
    string [__proto__] is never recorded in [cache], so every occurrence
    of it is kept. *)
Lemma unique_throws_after_hasOwnProperty :
  unique [VStr "hasOwnProperty"; VStr "a"] = Throw TypeError
  ∧ keep_first_occurrences [VStr "hasOwnProperty"; VStr "a"]
    = [VStr "hasOwnProperty"; VStr "a"]
  ∧ unique [VStr "__proto__"; VStr "a"; VStr "__proto__"]
    = Return [VStr "__proto__"; VStr "a"; VStr "__proto__"]
  ∧ keep_first_occurrences [VStr "__proto__"; VStr "a"; VStr "__proto__"]
    = [VStr "__proto__"; VStr "a"].
Proof. vm_compute. repeat split. Qed.

End UniqueFacts.

(** ** [concatUrls] *)

Section ConcatUrlsFacts.
Import ConcatUrls.

(** C7: [concatUrls("a/", "/b", "c/")] is ["a/b/c"]; a list of fragment
    strings passed as one array gives the same completion as the same
    fragments passed as separate arguments, and both forms of
    [["a","b"]] give ["a/b"]. *)
Theorem concatUrls_array_or_arguments :
  concatUrls [AStr "a/"; AStr "/b"; AStr "c/"] = Return "a/b/c"
  ∧ (∀ fragments : list string,
       concatUrls [AArr fragments] = concatUrls (AStr <$> fragments))
  ∧ concatUrls [AArr ["a"; "b"]] = concatUrls [AStr "a"; AStr "b"]
  ∧ concatUrls [AStr "a"; AStr "b"] = Return "a/b".
Proof.
  split; [reflexivity|]. split; [|split; reflexivity].
  intros fragments. unfold concatUrls.
  replace (select_fragments (AStr <$> fragments)) with (AStr <$> fragments)
    by (by destruct fragments).
  reflexivity.
Qed.

End ConcatUrlsFacts.

(** ** Viewport geometry *)

Section GeometryFacts.
Import Geometry.

(** C8: an element whose window-relative top is the client height plus
    10 is out of view in non-partial mode; in general [isOutOfView]
    answers [true] exactly when the element is fully below, fully right,
    fully above or fully left of the viewport or, in partial mode,
    clipped on some edge, and [false] exactly when none of these holds. *)
Theorem isOutOfView_classifies (doc : document) (el : element) :
  (windowTop (offset el) = clientHeight doc + 10 →
   isOutOfView doc el false = true)
  ∧ ∀ partially : bool,
      let o := offset el in
      let applies :=
        windowTop o > clientHeight doc
        ∨ windowLeft o > clientWidth doc
        ∨ windowTop o + height o < 0
        ∨ windowLeft o + width o < 0
        ∨ (partially = true
           ∧ (windowTop o + height o > clientHeight doc
              ∨ windowTop o < 0
              ∨ windowLeft o + width o > clientWidth doc
              ∨ windowLeft o < 0)) in
      (isOutOfView doc el partially = true ↔ applies)
      ∧ (isOutOfView doc el partially = false ↔ ¬ applies).
Proof.
  split.
  - intros Htop. unfold isOutOfView. rewrite Htop.
    replace (clientHeight doc + 10 >? clientHeight doc) with true; [done|].
    symmetry. apply Z.gtb_lt. lia.
  - intros partially o applies.
    assert (Htrue : isOutOfView doc el partially = true ↔ applies).
    { subst applies. unfold isOutOfView. fold o. clearbody o.
      destruct o as [l t ol ot wl wt w h], doc as [cw ch b].
      cbn [windowTop windowLeft width height clientWidth clientHeight].
      rewrite !Z.gtb_ltb.
      repeat match goal with
             | |- context [?a <? ?b] => destruct (Z.ltb_spec a b)
             end;
        destruct partially; cbn; split; intros;
        try done; try lia; intuition (try (discriminate || lia)). }
    split; [exact Htrue|].
    rewrite <- Htrue. destruct (isOutOfView doc el partially); split; intros;
      try done; congruence.
Qed.

Lemma isOutOfView_classifies_witness :
  let el := Element 1 0 610 50 20 0 0 20 None in
  let doc := Document 800 600 (Element 0 0 0 800 600 0 0 600 None) in
  windowTop (offset el) = clientHeight doc + 10
  ∧ isOutOfView doc el false = true.
Proof.
  intros el doc. split; [reflexivity|].
  apply (proj1 (isOutOfView_classifies doc el)). reflexivity.
Defined.

(** Induction along the chain of offset parents. *)
Lemma element_chain_ind (P : element → Prop) :
  (∀ e, offsetParent e = None → P e) →
  (∀ e p, offsetParent e = Some p → P p → P e) →
  ∀ e, P e.
Proof.
  intros Hroot Hstep. fix IH 1.
  intros [n ol ot ow oh sl st sh [p|]].
  - apply (Hstep _ p); [reflexivity | apply IH].
  - apply Hroot. reflexivity.
Qed.

(** The loop of [findClosestScrollableOffsetParent] returns the nearest
    scrollable offset ancestor. *)
Lemma findClosest_is_nearest (el : element) :
  findClosestScrollableOffsetParent el
  = List.find scrollable (offset_ancestors el).
Proof.
  induction el as [e Hnone | e p Hsome IH] using element_chain_ind;
    destruct e as [n ol ot ow oh sl st sh op]; cbn in *; subst op; cbn.
  - reflexivity.
  - unfold scrollable at 1. destruct (scrollHeight p >? offsetHeight p);
      [reflexivity | exact IH].
Qed.

(** C10: when [el] is at least partially out of view, [scrollY] assigns
    the [scrollTop] of the nearest offset ancestor whose [scrollHeight]
    exceeds its [offsetHeight], or of [document.body] when there is none;
    the [scrollElement] argument has no influence on the assignment, and
    the [scrollTop] of every other node, the caller's container included,
    is unchanged. *)
Theorem scrollY_ignores_scrollElement
        (doc : document) (el : element) (padding : option Z)
        (scrollElement : option element) :
  isOutOfView doc el true = true →
  let computed :=
    default (body doc) (List.find scrollable (offset_ancestors el)) in
  (∃ scrollTo,
      scrollY doc el padding scrollElement = Some (Assign computed scrollTo))
  ∧ (∀ other : option element,
       scrollY doc el padding other = scrollY doc el padding scrollElement)
  ∧ (∀ (scrollTops : nat → Z) (n : nat),
       n ≠ node computed →
       perform (scrollY doc el padding scrollElement) scrollTops n
       = scrollTops n).
Proof.
  intros Hout computed. unfold scrollY. rewrite Hout. cbn [negb].
  rewrite findClosest_is_nearest. fold computed.
  split; [eauto|]. split; [reflexivity|].
  intros scrollTops n Hn. cbn. by rewrite decide_False.
Qed.

Lemma scrollY_ignores_scrollElement_witness :
  let root := Element 0 0 0 800 600 0 0 600 None in
  let pane := Element 2 0 0 800 300 0 0 900 (Some root) in
  let el := Element 1 0 610 50 20 0 0 20 (Some pane) in
  let other := Element 7 0 0 800 600 0 0 5000 None in
  let doc := Document 800 600 root in
  isOutOfView doc el true = true
  ∧ scrollY doc el (Some 5) (Some other) = Some (Assign pane 35)
  ∧ perform (scrollY doc el (Some 5) (Some other)) (λ _, 0) (node other) = 0.
Proof.
  intros root pane el other doc.
  assert (Hout : isOutOfView doc el true = true) by reflexivity.
  destruct (scrollY_ignores_scrollElement doc el (Some 5) (Some other) Hout)
    as (_ & _ & Hframe).
  split; [exact Hout|]. split; [reflexivity|].
  apply Hframe. cbn. lia.
Defined.

End GeometryFacts.

(** ** [memoize] *)

Section MemoizeFacts.
Import Memoize.

(** C4, the calls that contradict it: a function returning [0] is applied
    twice by two calls with the key [7], the hit test of that path being
    the truthiness of the stored result where the paths for [undefined]
    and [null] compare with [undefined]; a function returning [undefined] is applied
    twice by two calls with the key [undefined]; and with the key
    ["constructor"] the function is not applied at all, the inherited
    property being returned. *)
Lemma memoize_reapplies_on_falsy_result :
  call_twice (constantly (VNum 0)) () VUndefined [VNum 7] VUndefined [VNum 7]
  = (Return (VNum 0), Return (VNum 0), 2%nat)
  ∧ call_twice (constantly VUndefined) () VUndefined [VUndefined]
               VUndefined [VUndefined]
    = (Return VUndefined, Return VUndefined, 2%nat)
  ∧ call_twice (constantly (VNum 49)) () VUndefined [VStr "constructor"]
               VUndefined [VStr "constructor"]
    = (Return (VNative "constructor"), Return (VNative "constructor"), 0%nat)
  ∧ ¬ (∀ (func : callable unit) (k : value),
         (call_twice func () VUndefined [k] VUndefined [k]).2 = 1%nat).
Proof.
  split; [reflexivity|]. split; [reflexivity|]. split; [reflexivity|].
  intros Hclaim. specialize (Hclaim (constantly (VNum 0)) (VNum 7)).
  vm_compute in Hclaim. discriminate.
Qed.

(** C4, the part that holds: two calls with the same key apply [func]
    exactly once and
    the second call returns the stored result, provided the first
    application returned a cacheable result; and the keys [undefined] and
    [null] have separate entries: a call with [undefined] followed by a
    call with [null] applies [func] twice. *)
Theorem memoize_applies_once_when_cacheable
        {W : Type} (func : callable W) (w : W) (this1 this2 : value) :
  (∀ (args1 args2 : list value) (k r : value) (w' : W),
      nth 0 args1 VUndefined = k →
      nth 0 args2 VUndefined = k →
      func this1 args1 w = (Return r, w') →
      cacheable k r →
      call_twice func w this1 args1 this2 args2 = (Return r, Return r, 1%nat))
  ∧ (∀ rest1 rest2 : list value,
       (call_twice func w this1 (VUndefined :: rest1)
                   this2 (VNull :: rest2)).2 = 2%nat).
Proof.
  split.
  - intros args1 args2 k r w' Hk1 Hk2 Hfunc Hcache.
    unfold call_twice, memoize, apply, cacheable in *.
    cbn [vars world calls fresh cache undefinedResult nullResult].
    rewrite Hk1, Hk2, Hfunc.
    destruct (decide (k = VUndefined)) as [->|Hu].
    { rewrite decide_True in Hcache by tauto.
      destruct (decide (VUndefined ≠ VUndefined)); [done|]. cbn.
      rewrite decide_True by done. reflexivity. }
    destruct (decide (k = VNull)) as [->|Hn].
    { rewrite decide_True in Hcache by tauto.
      destruct (decide (VUndefined ≠ VUndefined)); [done|]. cbn.
      rewrite decide_True by done. reflexivity. }
    rewrite decide_False in Hcache by tauto. destruct Hcache as [Hr Hinh].
    unfold get. rewrite lookup_empty, Hinh. cbn.
    rewrite lookup_insert_eq, Hr. reflexivity.
  - intros rest1 rest2. unfold call_twice, memoize, apply. cbn.
    destruct (func this1 (VUndefined :: rest1) w) as [[r1|e1] w1];
      repeat (case_decide; try done); cbn;
      destruct (func this2 (VNull :: rest2) w1) as [[r2|e2] w2];
      repeat (case_decide; try done); reflexivity.
Qed.

Lemma memoize_applies_once_when_cacheable_witness :
  cacheable (VNum 7) (VNum 49)
  ∧ call_twice (constantly (VNum 49)) () VUndefined [VNum 7] VNull [VNum 7]
    = (Return (VNum 49), Return (VNum 49), 1%nat).
Proof.
  assert (Hc : cacheable (VNum 7) (VNum 49)) by (vm_compute; split; reflexivity).
  split; [exact Hc|].
  apply (proj1 (memoize_applies_once_when_cacheable
                  (constantly (VNum 49)) () VUndefined VNull)
               [VNum 7] [VNum 7] (VNum 7) (VNum 49) ());
    [reflexivity | reflexivity | reflexivity | exact Hc].
Defined.

End MemoizeFacts.

(** ** [override] *)

Section OverrideFacts.
Import Override.
Context {W : Type}.
Implicit Types (F : callable W) (G : state W → program W).

(** Whatever the overrider does, its run only adds forwarder events, and
    those of [callOriginal] carry the receiver and arguments the wrapper
    was called with. *)
Lemma exec_forwards F (T : value) (A : list value) (p : program W) :
  ∀ (st : state W) (h : heap W),
    ∃ evs, trace (exec F T A p st h).2 = trace h ++ evs
           ∧ Forall (forwarded T A) evs.
Proof.
  induction p as [r|f k IH|v k IH|a k IH|k IH|k IH|f k IH]; intros st h;
    cbn [exec].
  - exists []. by rewrite app_nil_r.
  - apply IH.
  - apply IH.
  - apply IH.
  - unfold apply. destruct (F (thisArg st) (argsAsArray st) (world h)) as [r w].
    destruct (IH r st (Heap w (trace h ++ [Original callOverridden
                                              (thisArg st) (argsAsArray st)])))
      as (evs & Htr & Hall).
    exists (Original callOverridden (thisArg st) (argsAsArray st) :: evs).
    split; [rewrite Htr; cbn [trace]; by rewrite <- app_assoc
           | by constructor].
  - unfold apply. destruct (F T A (world h)) as [r w].
    destruct (IH r st (Heap w (trace h ++ [Original callOriginal T A])))
      as (evs & Htr & Hall).
    exists (Original callOriginal T A :: evs).
    split; [rewrite Htr; cbn [trace]; by rewrite <- app_assoc
           | by constructor].
  - destruct (f (world h)) as [v w].
    apply (IH v st (Heap w (trace h))).
Qed.

(** C2: [override(F, G)] returns a wrapper whose [__original] is [F]. A
    call of the wrapper with receiver [T] and arguments [A] calls [G]
    once, with a state record whose [original] is [F], and completes as
    that call of [G] does; every [callOriginal] in it applies [F] to [T]
    and [A], whatever [G] assigned to the record; [callOverridden] applies
    [F] to the receiver and arguments [G] assigned before calling it. When
    one of its arguments is not a function, [override] throws. *)
Theorem override_wrapper_forwards F G (T : value) (A : list value)
        (h : heap W) :
  let st := State F T A in
  (∃ wrapped,
      override (Function F) (Function G) = Return wrapped
      ∧ __original wrapped = F
      ∧ invoke wrapped T A h
        = exec F T A (G st) st (Heap (world h) (trace h ++ [Overrider st]))
      ∧ ∃ evs, trace (invoke wrapped T A h).2 = trace h ++ Overrider st :: evs
               ∧ Forall (forwarded T A) evs)
  ∧ (∀ (T' : value) (A' : list value) (f' : callable W)
       (k : completion value → program W),
       let mutated := State f' T' A' in
       let body := SetOriginal f' (SetThisArg T' (SetArgsAsArray A'
                     (InvokeCallOverridden k))) in
       spy F (λ _, body) T A h
       = exec F T A (k (F T' A' (world h)).1) mutated
              (Heap (F T' A' (world h)).2
                    (trace h ++ [Overrider st; Original callOverridden T' A'])))
  ∧ (∀ (mutated : state W) (h' : heap W)
       (k : completion value → program W),
       exec F T A (InvokeCallOriginal k) mutated h'
       = exec F T A (k (F T A (world h')).1) mutated
              (Heap (F T A (world h')).2
                    (trace h' ++ [Original callOriginal T A])))
  ∧ (∀ (r : completion value), spy F (λ _, Finish r) T A h
       = (r, Heap (world h) (trace h ++ [Overrider st])))
  ∧ (∀ (v : value) (g : argument (state W → program W)),
       override (NotAFunction v) g
       = Throw (JsError "funcToOverride must be a function"))
  ∧ (∀ v : value,
       override (Function F) (NotAFunction v)
       = Throw (JsError "Overrider argument must be a function")).
Proof.
  intros st. repeat split.
  - exists (Wrapper (spy F G) F). repeat split.
    cbn [invoke]. unfold spy. fold st.
    destruct (exec_forwards F T A (G st) st
                (Heap (world h) (trace h ++ [Overrider st])))
      as (evs & Htr & Hall).
    exists evs. split; [|exact Hall].
    rewrite Htr. cbn [trace]. by rewrite <- app_assoc.
  - intros T' A' f' k mutated body. unfold spy. subst body. cbn [exec].
    unfold apply. cbn [thisArg argsAsArray world trace].
    destruct (F T' A' (world h)) as [r w]. cbn [fst snd].
    by rewrite <- app_assoc.
  - intros mutated h' k. cbn [exec]. unfold apply.
    by destruct (F T A (world h')) as [r w].
Qed.

End OverrideFacts.

(** ** [throttle] and [debounce] *)

Section TimersFacts.
Import Host Timers.
Context {W : Type}.

Lemma debounce_quiet (func : callable W) (duration : Z) (T : value)
      (A : list value) (h : heap W) :
  quiet duration h →
  (∃ hd, timeout (debounce func duration T A h) = Some hd
         ∧ pending (timers (debounce func duration T A h))
           = [Timer hd duration onTimeout])
  ∧ calls (debounce func duration T A h) = calls h
  ∧ world (debounce func duration T A h) = world h.
Proof.
  intros Hq. unfold debounce, setTimeout. cbn. split; [|done].
  destruct Hq as [[-> ->]|(hd & -> & Hp)]; cbn; [eauto|].
  rewrite Hp. cbn. rewrite decide_False by tauto. cbn. eauto.
Qed.

Lemma debounce_all_quiet (func : callable W) (duration : Z)
      (cs : list call) (h : heap W) :
  quiet duration h →
  quiet duration (debounce_all func duration cs h)
  ∧ calls (debounce_all func duration cs h) = calls h
  ∧ world (debounce_all func duration cs h) = world h.
Proof.
  revert h. induction cs as [|c cs IH]; intros h Hq; [done|].
  change (debounce_all func duration (c :: cs) h)
    with (debounce_all func duration cs
            (debounce func duration (receiver c) (arguments c) h)).
  destruct (debounce_quiet func duration (receiver c) (arguments c) h Hq)
    as (Hq' & Hc & Hw).
  destruct (IH _ (or_intror Hq')) as (Hq'' & Hc' & Hw').
  split; [exact Hq''|]. split; congruence.
Qed.

(** C9: after any series of calls of the debounced wrapper, the last one
    with receiver [T] and arguments [A], one timer is pending; when it
    fires, [func] is applied once, to the timer's receiver and no
    arguments, whatever [T] and [A] were. The throttled wrapper's timer
    applies [func] to [T] and [A]. *)
Theorem debounce_discards_receiver_and_arguments
        (func : callable W) (duration : Z) (earlier : list call)
        (T : value) (A : list value) (w : W) :
  (let h := debounce func duration T A
                     (debounce_all func duration earlier (fresh w)) in
   ∃ hd, timeout h = Some hd
         ∧ pending (timers h) = [Timer hd duration onTimeout]
         ∧ calls h = []
         ∧ calls (fire func hd h) = [Call window []]
         ∧ world (fire func hd h) = (func window [] w).2)
  ∧ (let h := throttle func duration T A (fresh w) in
     ∃ hd, timeout h = Some hd
           ∧ pending (timers h) = [Timer hd duration (throttled T A)]
           ∧ calls h = []
           ∧ calls (fire func hd h) = [Call T A]
           ∧ world (fire func hd h) = (func T A w).2).
Proof.
  split.
  - destruct (debounce_all_quiet func duration earlier (fresh w))
      as (Hq & Hc & Hw); [by left|].
    destruct (debounce_quiet func duration T A _ Hq)
      as ((hd & Ht & Hp) & Hc' & Hw').
    rewrite Hc in Hc'. rewrite Hw in Hw'. clear Hq Hc Hw.
    set (h := debounce func duration T A _) in *. clearbody h.
    exists hd.
    split; [exact Ht|]. split; [exact Hp|]. split; [exact Hc'|].
    unfold fire. rewrite Hp. cbn [List.find handle].
    rewrite bool_decide_true by done.
    cbn. by rewrite Hc', Hw'.
  - cbn. exists 1%positive. repeat split.
Qed.

End TimersFacts.

(** ** [ajax] *)

Section AjaxFacts.
Import Ajax.
Context {W : Type}.

(** At a completion event the handler is the function [cb] made with the
    defaults of that handler. *)
Lemma handle_is_cb (callback : callable W) (req : nat)
      (e : host_event) (h : heap W) :
  completes e = true →
  handle callback req e h
  = cb callback req (defaults (on e)).1 (defaults (on e)).2 (now e) h.
Proof.
  unfold completes, handle. destruct (on e); try reflexivity.
  intros Hrs. apply bool_decide_eq_true in Hrs. by rewrite decide_True.
Qed.

Lemma handle_when_called (callback : callable W) (req : nat)
      (e : host_event) (h : heap W) :
  called h = true → (handle callback req e h).2 = h.
Proof.
  intros Hc. destruct h as [c w cs]. cbn in Hc. subst c.
  unfold handle, cb. cbn.
  destruct (on e); try reflexivity. by case_decide.
Qed.

Lemma deliver_cons (r : request W) (e : host_event)
      (events : list host_event) (h : heap W) :
  deliver r (e :: events) h = deliver r events (handlers r e h).2.
Proof. reflexivity. Qed.

Lemma deliver_when_called (callback : callable W) (req : nat)
      (k : request_kind) (events : list host_event) (h : heap W) :
  called h = true →
  deliver (Request k req (handle callback req)) events h = h.
Proof.
  induction events as [|e events IH]; intros Hc; [reflexivity|].
  rewrite deliver_cons. cbn [handlers].
  rewrite handle_when_called by exact Hc. by apply IH.
Qed.

Lemma handle_ignored (callback : callable W) (req : nat)
      (e : host_event) (h : heap W) :
  completes e = false → (handle callback req e h).2 = h.
Proof.
  unfold completes, handle. destruct (on e); try discriminate.
  intros Hrs. apply bool_decide_eq_false in Hrs. by rewrite decide_False.
Qed.

(** A completion event at which evaluating the arguments throws leaves
    everything as it was. *)
Lemma handle_unreadable (callback : callable W) (req : nat)
      (e : host_event) (h : heap W) :
  completes e = true → called h = false → call_at req e = None →
  (handle callback req e h).2 = h.
Proof.
  intros He Hc Hcall. rewrite handle_is_cb by exact He.
  unfold call_at in Hcall. unfold cb. rewrite Hc. cbn [negb].
  by destruct (callback_arguments _ _ _ _).
Qed.

Lemma handle_first_completion (callback : callable W) (req : nat)
      (e : host_event) (h : heap W) (c : call) :
  returns_normally callback → completes e = true → called h = false →
  call_at req e = Some c →
  called (handle callback req e h).2 = true
  ∧ calls (handle callback req e h).2 = calls h ++ [c].
Proof.
  intros Hnormal He Hc Hcall. rewrite handle_is_cb by exact He.
  unfold call_at in Hcall. unfold cb. rewrite Hc. cbn [negb].
  destruct (callback_arguments _ _ _ _) as [args|x]; [|discriminate].
  injection Hcall as <-.
  by destruct (Hnormal VUndefined args (world h)) as (v & w' & ->).
Qed.

(** C3, the part that holds: once a request object exists and the
    callback returns normally, any series of handler calls by the host
    invokes the callback at most once, namely at the first completion
    event at which the arguments can be evaluated (the third being the
    request object), and exactly once when the series holds such an
    event; on the error, timeout and abort handlers, a transport with no
    status and no response gives the arguments [null] and ["Error"],
    ["Timeout"] or ["Abort"]. *)
Theorem ajax_calls_back_once
        (env : environment) (cors : bool) (callback : callable W) (w : W)
        (req : nat) (r : request W) (events : list host_event) :
  ajax env cors callback req = Return r →
  returns_normally callback →
  calls (deliver r events (start w))
  = take 1 (omap (call_at req) (List.filter completes events))
  ∧ (∀ e, e ∈ events → completes e = true → is_Some (call_at req e) →
          length (calls (deliver r events (start w))) = 1%nat)
  ∧ (∀ (hd : handler) (t : transport) (text : value),
       hd ∈ [onerror; ontimeout; onabort] →
       req_status t = VUndefined →
       truthy (req_response t) = false →
       req_responseText t = Return text → truthy text = false →
       callback_arguments req (defaults hd).1 (defaults hd).2 t
       = Return [VNull; (defaults hd).2; VObj req]
       ∧ (defaults onerror).2 = VStr "Error"
       ∧ (defaults ontimeout).2 = VStr "Timeout"
       ∧ (defaults onabort).2 = VStr "Abort")
  ∧ (∀ (sc rt : value) (t : transport) (args : list value),
       callback_arguments req sc rt t = Return args →
       args !! 2%nat = Some (VObj req)).
Proof.
  intros Hajax Hnormal.
  unfold ajax in Hajax. destruct (getRequest env cors) as [k|]; [|discriminate].
  injection Hajax as <-.
  assert (Hfirst : ∀ h : heap W, called h = false →
    calls (deliver (Request k req (handle callback req)) events h)
    = calls h ++ take 1 (omap (call_at req) (List.filter completes events))).
  { induction events as [|e events IH]; intros h Hc.
    - cbn. by rewrite app_nil_r.
    - rewrite deliver_cons. cbn [handlers List.filter].
      destruct (completes e) eqn:He.
      + cbn [omap list_omap]. destruct (call_at req e) as [c|] eqn:Hcall.
        * destruct (handle_first_completion callback req e h c
                      Hnormal He Hc Hcall) as [Hc' Hcs'].
          rewrite deliver_when_called by exact Hc'. by rewrite Hcs'.
        * rewrite handle_unreadable by done. by apply IH.
      + rewrite handle_ignored by exact He. by apply IH. }
  specialize (Hfirst (start w) eq_refl). cbn [start calls app] in Hfirst.
  split; [exact Hfirst|]. split; [|split].
  - intros e Hin He [c Hcall]. rewrite Hfirst.
    assert (Hc : c ∈ omap (call_at req) (List.filter completes events)).
    { apply list_elem_of_omap. exists e. split; [|exact Hcall].
      apply list_elem_of_In, filter_In. split; [|exact He].
      by apply list_elem_of_In. }
    destruct (omap _ _) as [|c0 l]; [by apply elem_of_nil in Hc|reflexivity].
  - intros hd t text Hhd Hs Hr Htext Hrt.
    unfold callback_arguments, response_payload.
    rewrite Hs, Hr, Htext. unfold or_else. rewrite Hrt.
    rewrite decide_True by done.
    repeat split.
    repeat (apply elem_of_cons in Hhd as [->|Hhd]; [reflexivity|]).
    by apply elem_of_nil in Hhd.
  - intros sc rt t args. unfold callback_arguments.
    destruct (response_payload rt t); [|discriminate].
    by intros [= <-].
Qed.

End AjaxFacts.

Lemma ajax_calls_back_once_witness :
  let env := Ajax.Environment false true false in
  let callback : callable () := λ _ _ w, (Return VUndefined, w) in
  let silent :=
    Ajax.Transport VUndefined VUndefined (Return VUndefined) 0 in
  let done := Ajax.Transport (VNum 200) VUndefined (Return (VStr "ok")) 4 in
  let events :=
    [Ajax.Fires Ajax.onreadystatechange
                (Ajax.Transport VUndefined VUndefined (Return VUndefined) 2);
     Ajax.Fires Ajax.ontimeout silent;
     Ajax.Fires Ajax.onreadystatechange done;
     Ajax.Fires Ajax.onload done;
     Ajax.Fires Ajax.onabort silent] in
  let r := Ajax.Request Ajax.XMLHttpRequest 7 (Ajax.handle callback 7) in
  Ajax.ajax env false callback 7 = Return r
  ∧ Ajax.returns_normally callback
  ∧ Ajax.calls (Ajax.deliver r events (Ajax.start ()))
    = [Call VUndefined [VNull; VStr "Timeout"; VObj 7]].
Proof.
  intros env callback silent done events r.
  assert (Hnormal : Ajax.returns_normally callback)
    by (intros ???; by eexists _, _).
  split; [reflexivity|]. split; [exact Hnormal|].
  destruct (ajax_calls_back_once env false callback () 7 r events
                                 eq_refl Hnormal) as [Hcalls _].
  rewrite Hcalls. reflexivity.
Defined.

(** C3, the calls that contradict it. The assignment [called = true]
    follows the call of the callback, so a callback that throws is called
    again by the next completion event: twice for [onreadystatechange] in
    ready state 4 followed by [onload]. And when [req.response] is falsy
    and reading [req.responseText] throws, as on an aborted request with
    [responseType] ["json"], the callback is not called at all. *)
Lemma ajax_calls_back_twice_or_never :
  let env := Ajax.Environment false true false in
  let throwing : callable () := λ _ _ w, (Throw (JsError "handler"), w) in
  let returning : callable () := λ _ _ w, (Return VUndefined, w) in
  let done := Ajax.Transport (VNum 200) VUndefined (Return (VStr "ok")) 4 in
  let aborted :=
    Ajax.Transport (VNum 0) VNull (Throw (JsError "InvalidStateError")) 4 in
  (∃ r, Ajax.ajax env false throwing 7 = Return r
        ∧ Ajax.calls
            (Ajax.deliver r [Ajax.Fires Ajax.onreadystatechange done;
                             Ajax.Fires Ajax.onload done] (Ajax.start ()))
          = [Call VUndefined [VNum 200; VStr "ok"; VObj 7];
             Call VUndefined [VNum 200; VStr "ok"; VObj 7]])
  ∧ (∃ r, Ajax.ajax env false returning 7 = Return r
          ∧ Ajax.calls
              (Ajax.deliver r [Ajax.Fires Ajax.onreadystatechange aborted;
                               Ajax.Fires Ajax.onabort aborted]
                            (Ajax.start ()))
            = []).
Proof. split; eexists; split; reflexivity. Qed.

(** ** [retry] *)

Section RetryFacts.
Import Host Retry.
Implicit Types (func : retried) (s : system).

(** Nothing happens to a sequence that waits for nothing. *)
Lemma deliver_idle func (n : nat) s : awaited s = None → deliver func n s = s.
Proof. intros Hs. destruct n; cbn; by rewrite ?Hs. Qed.

(** A successful attempt settles the deferred object with the result,
    then calls [reject] on it. *)
Lemma attempt_returns func (a : Z) (k : nat) s (v : value) :
  at_attempt a k s → func k = Return v →
  deferred (attempt func s) = resolved v
  ∧ settle_calls (attempt func s) = [resolve_call v; reject_call []]
  ∧ invocations (attempt func s) = S k
  ∧ awaited (attempt func s) = None.
Proof.
  intros (Hal & Hinv & Hd & Hsc & Hp & Hl) Hf.
  unfold attempt. rewrite Hinv, Hf.
  unfold awaited, reject, resolve. cbn. rewrite Hd, Hsc, Hp, Hl. done.
Qed.

(** A failed attempt with no attempt left rejects without arguments. *)
Lemma attempt_gives_up func (a : Z) (k : nat) s (e : exn) :
  at_attempt a k s → func k = Throw e →
  afterLoad (dat s) = false → a - Z.of_nat k - 1 ≤ 0 →
  deferred (attempt func s) = rejected []
  ∧ settle_calls (attempt func s) = [reject_call []]
  ∧ invocations (attempt func s) = S k
  ∧ awaited (attempt func s) = None.
Proof.
  intros (Hal & Hinv & Hd & Hsc & Hp & Hl) Hf HaL Hle.
  unfold attempt. rewrite Hinv, Hf, HaL, Hal. cbn [andb].
  replace (a - Z.of_nat k - 1 >? 0) with false
    by (symmetry; rewrite Z.gtb_ltb; apply Z.ltb_ge; lia).
  unfold awaited, reject. cbn. rewrite Hd, Hsc, Hp, Hl. done.
Qed.

(** A failed attempt that is followed by another leaves the sequence
    waiting for one event, whose delivery starts the next attempt. *)
Lemma attempt_waits func (a : Z) (k : nat) s (e : exn) :
  at_attempt a k s → func k = Throw e →
  (afterLoad (dat s) = true ∧ readyState s ≠ complete)
  ∨ 0 < a - Z.of_nat k - 1 →
  deferred (attempt func s) = unsettled
  ∧ invocations (attempt func s) = S k
  ∧ ∃ ev s', awaited (attempt func s) = Some ev
             ∧ step func ev (attempt func s) = attempt func s'
             ∧ at_attempt a (S k) s'
             ∧ afterLoad (dat s') = afterLoad (dat s).
Proof.
  intros (Hal & Hinv & Hd & Hsc & Hp & Hl) Hf Hnext.
  destruct s as [[al dl aL to] df sc inv rs [nh pd] ll]. cbn in *. subst.
  unfold attempt. cbn. rewrite Hf.
  destruct (aL && negb (bool_decide (rs = complete))) eqn:Hload.
  - cbn. split; [done|]. split; [done|].
    exists load,
      (System (Data (a - Z.of_nat k - 1) dl aL to) unsettled [] (S k)
              complete (Host nh []) 0).
    split; [reflexivity|]. split; [reflexivity|]. split; [|reflexivity].
    unfold at_attempt. cbn. repeat split. lia.
  - assert (Hpos : (a - Z.of_nat k - 1 >? 0) = true).
    { destruct Hnext as [[-> Hrs]|Hpos].
      - rewrite bool_decide_false in Hload by done. discriminate.
      - rewrite Z.gtb_ltb. apply Z.ltb_lt. lia. }
    rewrite Hpos.
    set (t := match to with
              | Some hd => clearTimeout hd (Host nh [])
              | None => Host nh []
              end : host ()).
    assert (Hclear : pending t = []) by (by destruct to).
    unfold setTimeout. cbn. rewrite Hclear. cbn.
    split; [done|]. split; [done|].
    exists timer_fires,
      (System (Data (a - Z.of_nat k - 1) dl aL (Some (next_handle t)))
              unsettled [] (S k) rs (Host (Pos.succ (next_handle t)) []) 0).
    split; [reflexivity|]. split; [reflexivity|]. split; [|reflexivity].
    unfold at_attempt. cbn. repeat split. lia.
Qed.

(** A function that fails [m] more times and then returns [v], within the
    configured attempts: after [m] deliveries the deferred object is
    fulfilled with [v], [func] has been called [m] more times and once
    more, and [reject] was called after [resolve]. *)
Lemma deliver_until_success func (a : Z) (v : value) (m : nat) :
  ∀ (k : nat) s (fuel : nat),
    at_attempt a k s →
    (∀ i, (k ≤ i < k + m)%nat → ∃ e, func i = Throw e) →
    func (k + m)%nat = Return v →
    Z.of_nat (k + m) < a →
    (m ≤ fuel)%nat →
    deferred (deliver func fuel (attempt func s)) = resolved v
    ∧ settle_calls (deliver func fuel (attempt func s))
      = [resolve_call v; reject_call []]
    ∧ invocations (deliver func fuel (attempt func s)) = S (k + m)
    ∧ awaited (deliver func fuel (attempt func s)) = None.
Proof.
  induction m as [|m IH]; intros k s fuel Hat Hfail Hret Hlt Hfuel.
  - rewrite Nat.add_0_r in *.
    destruct (attempt_returns func a k s v Hat Hret) as (Hd & Hsc & Hi & Hw).
    by rewrite deliver_idle.
  - destruct (Hfail k) as [e He]; [lia|].
    destruct (attempt_waits func a k s e Hat He) as (_ & _ & ev & s' & Hw & Hstep & Hat' & _);
      [right; lia|].
    destruct fuel as [|fuel]; [lia|].
    cbn [deliver]. rewrite Hw, Hstep.
    replace (k + S m)%nat with (S k + m)%nat in * by lia.
    apply (IH (S k) s' fuel); try done; try lia.
    intros i Hi. apply Hfail. lia.
Qed.

(** A function that always fails, when no [load] event is waited for:
    each delivery brings one more call until the attempts are used up;
    then the deferred object is rejected, without arguments. *)
Lemma deliver_until_exhausted func (a : Z) (n : nat) :
  (∀ i, ∃ e, func i = Throw e) →
  ∀ (k : nat) s (fuel : nat),
    at_attempt a k s →
    afterLoad (dat s) = false →
    Z.of_nat n = a - Z.of_nat k - 1 →
    let s' := deliver func fuel (attempt func s) in
    if (fuel <? n)%nat
    then deferred s' = unsettled ∧ invocations s' = (k + 1 + fuel)%nat
    else deferred s' = rejected []
         ∧ settle_calls s' = [reject_call []]
         ∧ invocations s' = (k + 1 + n)%nat
         ∧ awaited s' = None.
Proof.
  intros Hfail. induction n as [|n IH]; intros k s fuel Hat HaL Hn s'; subst s'.
  - destruct (Hfail k) as [e He].
    destruct (attempt_gives_up func a k s e Hat He HaL) as (Hd & Hsc & Hi & Hw);
      [lia|].
    rewrite deliver_idle by exact Hw. cbn. repeat split; try done. lia.
  - destruct (Hfail k) as [e He].
    destruct (attempt_waits func a k s e Hat He)
      as (Hd & Hi & ev & s' & Hw & Hstep & Hat' & HaL');
      [right; lia|].
    destruct fuel as [|fuel].
    + cbn. split; [exact Hd|lia].
    + cbn [deliver]. rewrite Hw, Hstep.
      specialize (IH (S k) s' fuel Hat').
      change (S fuel <? S n)%nat with (fuel <? n)%nat.
      replace (k + 1 + S fuel)%nat with (S k + 1 + fuel)%nat by lia.
      replace (k + 1 + S n)%nat with (S k + 1 + n)%nat by lia.
      apply IH; [congruence|lia].
Qed.

(** C1, the part that holds, and the call that contradicts it: when
    [func] fails [N - 1] times and then returns [v], with [N] at most the
    configured attempts, the deferred object is fulfilled with [v] after
    [N] calls of [func] and no further call follows; but the calls made on
    the deferred object are [resolve(v)] and then [reject()]. *)
Theorem retry_resolves_then_calls_reject
        func (afterLoad : value) (attempts delay : option Z)
        (rs : ready_state) (N : nat) (v : value) (fuel : nat) :
  (1 ≤ N)%nat →
  fails_first func (N - 1) →
  func (N - 1)%nat = Return v →
  Z.of_nat N ≤ or_default attempts defaultAttempts →
  (N - 1 ≤ fuel)%nat →
  let s := deliver func fuel (retry func afterLoad attempts delay rs) in
  deferred s = resolved v
  ∧ invocations s = N
  ∧ awaited s = None
  ∧ settle_calls s = [resolve_call v; reject_call []].
Proof.
  intros HN Hfail Hret Hle Hfuel s. subst s. unfold retry.
  destruct (deliver_until_success func
              (or_default attempts defaultAttempts) v (N - 1) 0
              (start afterLoad attempts delay rs) fuel)
    as (Hd & Hsc & Hi & Hw); [| | exact Hret | | exact Hfuel |].
  - unfold at_attempt. cbn. repeat split. lia.
  - intros i Hi. apply Hfail. lia.
  - cbn. lia.
  - rewrite Hd, Hsc, Hi, Hw. repeat split. lia.
Qed.

Lemma retry_resolves_then_calls_reject_witness :
  let func : retried := λ _, Return (VNum 42) in
  let s := deliver func 0 (retry func VUndefined (Some 3) None complete) in
  deferred s = resolved (VNum 42)
  ∧ invocations s = 1%nat
  ∧ awaited s = None
  ∧ settle_calls s = [resolve_call (VNum 42); reject_call []].
Proof.
  intros func.
  apply (retry_resolves_then_calls_reject
           func VUndefined (Some 3) None complete 1 (VNum 42) 0).
  - lia.
  - intros i Hi. cbn in Hi. lia.
  - reflexivity.
  - cbn. lia.
  - cbn. lia.
Defined.

(** C5: with a function that always throws, three attempts and no
    waiting for the [load] event, the deferred object is still unsettled
    after the first and the second call of the function, and after the
    third it is rejected, by a [reject] call without arguments; nothing is
    pending afterwards. *)
Theorem retry_rejects_after_three_failures
        func (afterLoad : value) (delay : option Z) (rs : ready_state)
        (fuel : nat) :
  (∀ i, ∃ e, func i = Throw e) →
  truthy afterLoad = false ∨ rs = complete →
  let s := deliver func fuel (retry func afterLoad (Some 3) delay rs) in
  if (fuel <? 2)%nat
  then deferred s = unsettled ∧ invocations s = (1 + fuel)%nat
  else deferred s = rejected []
       ∧ settle_calls s = [reject_call []]
       ∧ invocations s = 3%nat
       ∧ awaited s = None.
Proof.
  intros Hfail Hoff.
  apply (deliver_until_exhausted func 3 2 Hfail 0
           (start afterLoad (Some 3) delay rs) fuel).
  - unfold at_attempt. cbn. repeat split.
  - cbn. destruct Hoff as [->| ->]; [by case_bool_decide|done].
  - reflexivity.
Qed.

Lemma retry_rejects_after_three_failures_witness :
  let func : retried := λ _, Throw (JsError "not yet") in
  let s := deliver func 2 (retry func VUndefined (Some 3) None loading) in
  deferred s = rejected []
  ∧ settle_calls s = [reject_call []]
  ∧ invocations s = 3%nat
  ∧ awaited s = None.
Proof.
  intros func.
  apply (retry_rejects_after_three_failures func VUndefined None loading 2).
  - intros i. by eexists.
  - by left.
Defined.

End RetryFacts.

(** * Further properties *)

(** ** [offset] and [scrollY] *)

Section OffsetFacts.
Import Geometry OffsetSums.

Lemma offset_loop_sums (e : element) :
  ∀ a : accumulators,
    offset_loop e a
    = Acc (acc_left a + total offsetLeft (offset_ancestors e))
          (acc_top a + total offsetTop (offset_ancestors e))
          (acc_scrollLeft a - total scrollLeft (offset_ancestors e))
          (acc_scrollTop a - total scrollTop (offset_ancestors e)
           + total offsetTop (offset_ancestors e)).
Proof.
  induction e as [e Hnone | e p Hsome IH] using element_chain_ind; intros a;
    destruct e as [n ol ot ow oh sl st sh op]; cbn in *; subst op; cbn.
  - destruct a. cbn. by rewrite !Z.add_0_r, !Z.sub_0_r.
  - rewrite IH. unfold total. cbn. f_equal; lia.
Qed.

(** X1: [offset]: the page position is the sum of the offsets of the element
    and of its offset ancestors; the window-relative top is the page top
    minus the ancestors' [scrollTop]; the window-relative left is the
    element's own [offsetLeft] minus the ancestors' [scrollLeft], the
    ancestors' [offsetLeft] not being added. *)
Theorem offset_is_sum_along_ancestors (el : element) :
  let ancestors := offset_ancestors el in
  left (offset el) = offsetLeft el + total offsetLeft ancestors
  ∧ top (offset el) = offsetTop el + total offsetTop ancestors
  ∧ windowTop (offset el) = top (offset el) - total scrollTop ancestors
  ∧ windowLeft (offset el) = offsetLeft el - total scrollLeft ancestors
  ∧ width (offset el) = offsetWidth el
  ∧ height (offset el) = offsetHeight el.
Proof.
  intros ancestors. unfold offset. rewrite offset_loop_sums. cbn.
  fold ancestors. repeat split; lia.
Qed.

(** X2: [scrollY] returns without assigning exactly when the box of the
    element lies inside the viewport on both axes; otherwise it assigns,
    also when the element is clipped on the horizontal axis only. *)
Theorem scrollY_assigns_unless_inside
        (doc : document) (el : element) (padding : option Z)
        (scrollElement : option element) :
  scrollY doc el padding scrollElement = None
  ↔ inside_viewport doc (offset el).
Proof.
  unfold scrollY, isOutOfView, inside_viewport.
  generalize (offset el). intros o.
  destruct o as [l t ol ot wl wt w h], doc as [cw ch b].
  cbn [windowTop windowLeft width height clientWidth clientHeight
       offsets_offsetTop].
  rewrite !Z.gtb_ltb.
  repeat match goal with
         | |- context [?a <? ?b] => destruct (Z.ltb_spec a b)
         end; cbn; split; intros; try done; try lia.
Qed.

End OffsetFacts.

(** ** [throttle] *)

Section ThrottleFacts.
Import Host Timers ThrottleSeries.
Context {W : Type}.

(** While its timer is pending the throttled wrapper does nothing. *)
Lemma throttle_all_pending (func : callable W) (amount : Z) (cs : list call)
      (h : heap W) :
  is_Some (timeout h) → throttle_all func amount cs h = h.
Proof.
  intros [hd Hhd]. induction cs as [|c cs IH]; [reflexivity|].
  change (throttle_all func amount (c :: cs) h)
    with (throttle_all func amount cs
            (throttle func amount (receiver c) (arguments c) h)).
  unfold throttle at 1. rewrite Hhd. exact IH.
Qed.

(** X3: [throttle]: of a series of calls made before the timer fires only the
    first counts: one timer is pending, [func] has not been applied, and
    when the timer fires [func] is applied once, to the receiver and the
    arguments of the first call; the later calls are dropped. After that
    the next call starts a new timer. *)
Theorem throttle_forwards_first_call
        (func : callable W) (amount : Z) (T : value) (A : list value)
        (later : list call) (T' : value) (A' : list value) (w : W) :
  let h := throttle_all func amount (Call T A :: later) (fresh w) in
  pending (timers h) = [Timer 1 amount (throttled T A)]
  ∧ calls h = []
  ∧ calls (fire func 1 h) = [Call T A]
  ∧ world (fire func 1 h) = (func T A w).2
  ∧ pending (timers (fire func 1 h)) = []
  ∧ pending (timers (throttle func amount T' A' (fire func 1 h)))
    = [Timer 2 amount (throttled T' A')].
Proof.
  intros h. subst h.
  change (throttle_all func amount (Call T A :: later) (fresh w))
    with (throttle_all func amount later (throttle func amount T A (fresh w))).
  rewrite throttle_all_pending by (cbn; eauto).
  repeat split.
Qed.

End ThrottleFacts.

(** ** [retry]: how often the function is called *)

Section RetryCountFacts.
Import Host Retry.
Implicit Types (func : retried) (s : system).

(** X4: [retry] without waiting for [load], on a function that always throws:
    the function is called [max(1, a)] times, [a] being [attempts || 5],
    and the deferred object is then rejected without arguments. A
    negative [attempts] gives one call; [0] or no [attempts] gives five. *)
Theorem retry_calls_until_attempts_used
        func (afterLoad : value) (attempts delay : option Z)
        (rs : ready_state) (fuel : nat) :
  (∀ i, ∃ e, func i = Throw e) →
  truthy afterLoad = false ∨ rs = complete →
  (Z.to_nat (or_default attempts defaultAttempts - 1) ≤ fuel)%nat →
  let s := deliver func fuel (retry func afterLoad attempts delay rs) in
  deferred s = rejected []
  ∧ settle_calls s = [reject_call []]
  ∧ invocations s = Z.to_nat (Z.max 1 (or_default attempts defaultAttempts))
  ∧ awaited s = None.
Proof.
  intros Hfail Hoff Hfuel. unfold retry.
  set (a := or_default attempts defaultAttempts) in *.
  set (s0 := start afterLoad attempts delay rs).
  assert (Hat : at_attempt a 0 s0).
  { unfold at_attempt. cbn. fold a. repeat split. lia. }
  assert (HaL : Retry.afterLoad (dat s0) = false).
  { cbn. destruct Hoff as [->| ->]; [by case_bool_decide|done]. }
  destruct (Z_le_gt_dec a 1) as [Hle|Hgt].
  - destruct (Hfail 0%nat) as [e He].
    destruct (attempt_gives_up func a 0 s0 e Hat He HaL) as (Hd & Hsc & Hi & Hw);
      [lia|].
    cbn zeta. rewrite deliver_idle by exact Hw.
    repeat split; try done. rewrite Hi. lia.
  - pose proof (deliver_until_exhausted func a (Z.to_nat (a - 1)) Hfail
                  0 s0 fuel Hat HaL) as H.
    cbn zeta in H.
    replace (fuel <? Z.to_nat (a - 1))%nat with false in H
      by (symmetry; apply Nat.ltb_ge; lia).
    destruct H as (Hd & Hsc & Hi & Hw); [lia|].
    cbn zeta. repeat split; try done. rewrite Hi. lia.
Qed.

Lemma retry_calls_until_attempts_used_witness :
  let func : retried := λ _, Throw TypeError in
  let s := deliver func 0 (retry func VUndefined (Some (-2)) None loading) in
  deferred s = rejected []
  ∧ settle_calls s = [reject_call []]
  ∧ invocations s = 1%nat
  ∧ awaited s = None.
Proof.
  intros func.
  apply (retry_calls_until_attempts_used func VUndefined (Some (-2)) None
                                         loading 0).
  - intros i. by eexists.
  - by left.
  - cbn. lia.
Defined.

(** A failed attempt made after the document has loaded, with no attempt
    left, rejects. *)
Lemma attempt_gives_up_loaded func (a : Z) (k : nat) s (e : exn) :
  at_attempt a k s → func k = Throw e →
  readyState s = complete → a - Z.of_nat k - 1 ≤ 0 →
  deferred (attempt func s) = rejected []
  ∧ settle_calls (attempt func s) = [reject_call []]
  ∧ invocations (attempt func s) = S k
  ∧ awaited (attempt func s) = None.
Proof.
  intros (Hal & Hinv & Hd & Hsc & Hp & Hl) Hf Hrs Hle.
  unfold attempt. rewrite Hinv, Hf, Hal. cbn [readyState]. rewrite Hrs.
  rewrite bool_decide_true by done. rewrite andb_false_r.
  replace (a - Z.of_nat k - 1 >? 0) with false
    by (symmetry; rewrite Z.gtb_ltb; apply Z.ltb_ge; lia).
  unfold awaited, reject. cbn. rewrite Hd, Hsc, Hp, Hl. done.
Qed.

(** A failed attempt made after the document has loaded, with attempts
    left, waits for a timer. *)
Lemma attempt_waits_loaded func (a : Z) (k : nat) s (e : exn) :
  at_attempt a k s → func k = Throw e →
  readyState s = complete → 0 < a - Z.of_nat k - 1 →
  ∃ s', awaited (attempt func s) = Some timer_fires
        ∧ step func timer_fires (attempt func s) = attempt func s'
        ∧ at_attempt a (S k) s'
        ∧ readyState s' = complete.
Proof.
  intros (Hal & Hinv & Hd & Hsc & Hp & Hl) Hf Hrs Hpos.
  destruct s as [[al dl aL to] df sc inv rs [nh pd] ll]. cbn in *. subst.
  unfold attempt. cbn. rewrite Hf. rewrite andb_false_r.
  replace (a - Z.of_nat k - 1 >? 0) with true
    by (symmetry; rewrite Z.gtb_ltb; apply Z.ltb_lt; lia).
  set (t := match to with
            | Some hd => clearTimeout hd (Host nh [])
            | None => Host nh []
            end : host ()).
  assert (Hclear : pending t = []) by (by destruct to).
  unfold setTimeout. cbn. rewrite Hclear. cbn.
  exists (System (Data (a - Z.of_nat k - 1) dl aL (Some (next_handle t)))
                 unsettled [] (S k) complete
                 (Host (Pos.succ (next_handle t)) []) 0).
  split; [reflexivity|]. split; [reflexivity|]. split; [|reflexivity].
  unfold at_attempt. cbn. repeat split. lia.
Qed.

Lemma deliver_until_exhausted_loaded func (a : Z) (n : nat) :
  (∀ i, ∃ e, func i = Throw e) →
  ∀ (k : nat) s (fuel : nat),
    at_attempt a k s →
    readyState s = complete →
    Z.of_nat n = Z.max 0 (a - Z.of_nat k - 1) →
    (n ≤ fuel)%nat →
    deferred (deliver func fuel (attempt func s)) = rejected []
    ∧ settle_calls (deliver func fuel (attempt func s)) = [reject_call []]
    ∧ invocations (deliver func fuel (attempt func s)) = (k + 1 + n)%nat
    ∧ awaited (deliver func fuel (attempt func s)) = None.
Proof.
  intros Hfail. induction n as [|n IH]; intros k s fuel Hat Hrs Hn Hfuel.
  - destruct (Hfail k) as [e He].
    destruct (attempt_gives_up_loaded func a k s e Hat He Hrs)
      as (Hd & Hsc & Hi & Hw); [lia|].
    rewrite deliver_idle by exact Hw. repeat split; try done. lia.
  - destruct (Hfail k) as [e He].
    destruct (attempt_waits_loaded func a k s e Hat He Hrs)
      as (s' & Hw & Hstep & Hat' & Hrs'); [lia|].
    destruct fuel as [|fuel]; [lia|].
    cbn [deliver]. rewrite Hw, Hstep.
    replace (k + 1 + S n)%nat with (S k + 1 + n)%nat by lia.
    apply IH; try done; lia.
Qed.

(** X5: [retry] waiting for [load] (a truthy [afterLoad], the document not yet
    complete), on a function that always throws: the second call is made
    when [load] fires whatever [attempts] is, so the function is called
    [max(2, a)] times before the deferred object is rejected. *)
Theorem retry_after_load_calls_at_least_twice
        func (afterLoad : value) (attempts delay : option Z)
        (rs : ready_state) (fuel : nat) :
  (∀ i, ∃ e, func i = Throw e) →
  truthy afterLoad = true → rs ≠ complete →
  (Z.to_nat (or_default attempts defaultAttempts - 1) + 1 ≤ fuel)%nat →
  let s0 := retry func afterLoad attempts delay rs in
  let s := deliver func fuel s0 in
  deferred s0 = unsettled
  ∧ invocations s0 = 1%nat
  ∧ awaited s0 = Some load
  ∧ deferred s = rejected []
  ∧ settle_calls s = [reject_call []]
  ∧ invocations s = Z.to_nat (Z.max 2 (or_default attempts defaultAttempts))
  ∧ awaited s = None.
Proof.
  intros Hfail HaL Hrs Hfuel. unfold retry.
  set (a := or_default attempts defaultAttempts) in *.
  destruct (Hfail 0%nat) as [e0 He0].
  set (d := Data (a - 1) (or_default delay defaultDelay) true None).
  set (s1 := System d unsettled [] 1 complete (Host 1 []) 0).
  assert (Hfirst : attempt func (start afterLoad attempts delay rs)
                   = System d unsettled [] 1 rs (Host 1 []) 1).
  { unfold attempt, start. cbn. fold a. rewrite He0, HaL.
    rewrite bool_decide_false by done. cbn. reflexivity. }
  cbn zeta. rewrite Hfirst.
  split; [reflexivity|]. split; [reflexivity|]. split; [reflexivity|].
  destruct fuel as [|fuel]; [lia|].
  change (deliver func (S fuel) (System d unsettled [] 1 rs (Host 1 []) 1))
    with (deliver func fuel (attempt func s1)).
  assert (Hat : at_attempt a 1 s1).
  { unfold at_attempt. cbn. repeat split. }
  destruct (deliver_until_exhausted_loaded func a (Z.to_nat (Z.max 0 (a - 2)))
              Hfail 1 s1 fuel Hat eq_refl) as (Hd & Hsc & Hi & Hw); [lia|lia|].
  repeat split; try done. rewrite Hi. lia.
Qed.

Lemma retry_after_load_calls_at_least_twice_witness :
  let func : retried := λ _, Throw TypeError in
  let s0 := retry func (VBool true) (Some 1) None interactive in
  let s := deliver func 1 s0 in
  deferred s0 = unsettled
  ∧ invocations s0 = 1%nat
  ∧ awaited s0 = Some load
  ∧ deferred s = rejected []
  ∧ settle_calls s = [reject_call []]
  ∧ invocations s = 2%nat
  ∧ awaited s = None.
Proof.
  intros func.
  apply (retry_after_load_calls_at_least_twice func (VBool true) (Some 1) None
                                               interactive 1).
  - intros i. by eexists.
  - reflexivity.
  - discriminate.
  - cbn. lia.
Defined.

End RetryCountFacts.

(** ** [memoize]: colliding keys and thrown exceptions *)

Section MemoizeMoreFacts.
Import Memoize.
Context {W : Type}.


(** X7: [memoize]: an exception thrown by [func] is passed on and nothing is
    stored: the next call with the same key applies [func] again, to the
    receiver and to all the arguments of that call. *)
Theorem memoize_does_not_store_exceptions
        (func : callable W) (w w' : W) (this1 this2 : value)
        (args1 args2 : list value) (e : exn) :
  nth 0 args1 VUndefined = nth 0 args2 VUndefined →
  inherited (to_string (nth 0 args1 VUndefined)) = false →
  func this1 args1 w = (Throw e, w') →
  call_twice func w this1 args1 this2 args2
  = (Throw e, (func this2 args2 w').1, 2%nat).
Proof.
  intros Hk Hinh Hf.
  unfold call_twice, memoize, apply.
  cbn [vars world calls fresh cache undefinedResult nullResult].
  rewrite <- Hk, Hf. set (k := nth 0 args1 VUndefined) in *.
  destruct (decide (k = VUndefined)) as [Hu|Hu].
  { rewrite (decide_False (P := VUndefined ≠ VUndefined)) by tauto. cbn.
    rewrite (decide_False (P := VUndefined ≠ VUndefined)) by tauto.
    by destruct (func this2 args2 w') as [[r2|e2] w2]. }
  destruct (decide (k = VNull)) as [Hn|Hn].
  { rewrite (decide_False (P := VUndefined ≠ VUndefined)) by tauto. cbn.
    rewrite (decide_False (P := VUndefined ≠ VUndefined)) by tauto.
    by destruct (func this2 args2 w') as [[r2|e2] w2]. }
  unfold get. rewrite !lookup_empty, Hinh. cbn.
  by destruct (func this2 args2 w') as [[r2|e2] w2].
Qed.

End MemoizeMoreFacts.


Lemma memoize_does_not_store_exceptions_witness :
  let func : callable bool :=
    λ _ _ failed, if failed then (Return (VNum 3), failed)
                  else (Throw TypeError, true) in
  Memoize.call_twice func false VUndefined [VNum 7] VUndefined [VNum 7]
  = (Throw TypeError, Return (VNum 3), 2%nat).
Proof.
  intros func.
  apply (memoize_does_not_store_exceptions func false true VUndefined VUndefined
           [VNum 7] [VNum 7] TypeError); reflexivity.
Defined.

(** ** [override]: the original is only reached through the forwarders *)

Section OverrideMoreFacts.
Import Override OverrideSilent.
Context {W : Type}.

Lemma exec_without_forwarder (F : callable W) (T : value) (A : list value)
      (p : program W) :
  calls_no_forwarder p →
  ∀ (st : state W) (h : heap W), trace (exec F T A p st h).2 = trace h.
Proof.
  induction p as [r|f k IH|v k IH|a k IH|k IH|k IH|f k IH]; cbn [exec];
    intros Hp st h; try done; try (by apply IH).
  destruct (f (world h)) as [v w]. rewrite (IH v (Hp v)). reflexivity.
Qed.

(** X8: [override]: the wrapper itself never applies the original function.
    When the overrider calls neither [callOverridden] nor [callOriginal],
    a call of the wrapper records the call of the overrider and nothing
    else. *)
Theorem override_never_calls_original_itself
        (F : callable W) (G : state W → program W) (T : value)
        (A : list value) (h : heap W) :
  calls_no_forwarder (G (State F T A)) →
  trace (spy F G T A h).2 = trace h ++ [Overrider (State F T A)].
Proof.
  intros HG. unfold spy. by rewrite exec_without_forwarder.
Qed.

End OverrideMoreFacts.

Lemma override_never_calls_original_itself_witness :
  let F : callable nat := λ _ _ n, (Return (VNum 1), S n) in
  let G : Override.state nat → Override.program nat :=
    λ st, Override.SetArgsAsArray [VNum 42]
            (Override.Perform (λ n, (VNum 0, n))
               (λ _, Override.Finish (Return VNull))) in
  Override.trace (Override.spy F G VUndefined [VNum 7] (Override.Heap 0%nat [])).2
  = [Override.Overrider (Override.State F VUndefined [VNum 7])].
Proof.
  intros F G.
  apply (override_never_calls_original_itself F G VUndefined [VNum 7]
           (Override.Heap 0%nat [])).
  cbn. done.
Defined.

(** ** [ajax]: a callback that throws, and what the transport reports *)

Section AjaxMoreFacts.
Import Ajax AjaxCalls.
Context {W : Type}.

Lemma handle_throwing (callback : callable W) (req : nat)
      (e : host_event) (h : heap W) (c : call) :
  always_throws callback → completes e = true → called h = false →
  call_at req e = Some c →
  called (handle callback req e h).2 = false
  ∧ calls (handle callback req e h).2 = calls h ++ [c].
Proof.
  intros Hthrows He Hc Hcall. rewrite handle_is_cb by exact He.
  unfold call_at in Hcall. unfold cb. rewrite Hc. cbn [negb].
  destruct (callback_arguments _ _ _ _) as [args|x]; [|discriminate].
  injection Hcall as <-.
  by destruct (Hthrows VUndefined args (world h)) as (x & w' & ->).
Qed.

(** X9: [ajax]: the variable [called] is set after the callback has returned,
    so a callback that throws is called again: when every call of the
    callback throws, it is called once at each completion event of the
    series at which its arguments can be evaluated, in order. *)
Theorem ajax_calls_throwing_callback_again
        (env : environment) (cors : bool) (callback : callable W) (w : W)
        (req : nat) (r : request W) (events : list host_event) :
  ajax env cors callback req = Return r →
  always_throws callback →
  calls (deliver r events (start w))
  = omap (call_at req) (List.filter completes events)
  ∧ called (deliver r events (start w)) = false.
Proof.
  intros Hajax Hthrows.
  unfold ajax in Hajax. destruct (getRequest env cors) as [k|]; [|discriminate].
  injection Hajax as <-.
  assert (Hall : ∀ h : heap W, called h = false →
    calls (deliver (Request k req (handle callback req)) events h)
    = calls h ++ omap (call_at req) (List.filter completes events)
    ∧ called (deliver (Request k req (handle callback req)) events h) = false).
  { induction events as [|e events IH]; intros h Hc.
    - cbn. by rewrite app_nil_r.
    - rewrite deliver_cons. cbn [handlers List.filter].
      destruct (completes e) eqn:He.
      + cbn [omap list_omap]. destruct (call_at req e) as [c|] eqn:Hcall.
        * destruct (handle_throwing callback req e h c Hthrows He Hc Hcall)
            as [Hc' Hcs'].
          destruct (IH _ Hc') as [Hcalls Hcalled].
          split; [|exact Hcalled].
          rewrite Hcalls, Hcs'. by rewrite <- app_assoc.
        * rewrite handle_unreadable by done. by apply IH.
      + rewrite handle_ignored by exact He. by apply IH. }
  apply (Hall (start w) eq_refl).
Qed.

(** The calls made so far stay, whatever the callback does. *)
Lemma deliver_keeps_calls (callback : callable W) (req : nat)
      (k : request_kind) (events : list host_event) :
  ∀ h : heap W,
    ∃ more,
      calls (deliver (Request k req (handle callback req)) events h)
      = calls h ++ more.
Proof.
  induction events as [|e events IH]; intros h.
  - exists []. cbn. by rewrite app_nil_r.
  - rewrite deliver_cons. cbn [handlers].
    destruct (IH (handle callback req e h).2) as [more ->].
    assert (Hstep : ∃ one, calls (handle callback req e h).2 = calls h ++ one).
    { destruct (completes e) eqn:He.
      - rewrite handle_is_cb by exact He. unfold cb.
        destruct (negb (called h)); [|exists []; cbn; by rewrite app_nil_r].
        destruct (callback_arguments _ _ _ _) as [args|x];
          [|exists []; cbn; by rewrite app_nil_r].
        destruct (callback VUndefined args (world h)) as [[v|x] w'];
          by eexists.
      - rewrite handle_ignored by exact He. exists []. by rewrite app_nil_r. }
    destruct Hstep as [one ->]. exists (one ++ more). by rewrite app_assoc.
Qed.

Lemma deliver_first_completion (callback : callable W) (req : nat)
      (k : request_kind) (events : list host_event) (e : host_event)
      (c : call) :
  List.find completes events = Some e →
  call_at req e = Some c →
  ∀ h : heap W, called h = false →
    ∃ rest,
      calls (deliver (Request k req (handle callback req)) events h)
      = calls h ++ c :: rest
      ∧ (returns_normally callback → rest = []).
Proof.
  intros Hfind Hcall. revert Hfind.
  induction events as [|x events IH]; intros Hfind h Hc; [discriminate|].
  rewrite deliver_cons. cbn [handlers]. cbn [List.find] in Hfind.
  destruct (completes x) eqn:Hx.
  - injection Hfind as ->.
    rewrite handle_is_cb by exact Hx.
    unfold call_at in Hcall. unfold cb at 1. rewrite Hc. cbn [negb].
    destruct (callback_arguments _ _ _ _) as [args|y]; [|discriminate].
    injection Hcall as <-.
    destruct (callback VUndefined args (world h)) as [[v|y] w'] eqn:Hcb.
    + rewrite deliver_when_called by reflexivity. cbn [snd calls].
      by exists [].
    + cbn [snd].
      match goal with
      | |- context [deliver _ events ?h1] =>
          destruct (deliver_keeps_calls callback req k events h1)
            as [more ->]
      end.
      cbn [calls]. exists more. split; [by rewrite <- app_assoc|].
      intros Hnormal.
      destruct (Hnormal VUndefined args (world h)) as (v & w'' & Hv).
      congruence.
  - rewrite handle_ignored by exact Hx. by apply IH.
Qed.

(** X10: [ajax]: at the first completion event, when the transport has a
    status and the payload can be read, the callback is called with that
    status, whatever the handler: the codes [200] and [null] are used
    only when [req.status] is [undefined] (a failed [XMLHttpRequest],
    whose status is [0], reports [0]). In the same way a truthy
    [req.response], or else a truthy [req.responseText], is what the
    callback gets as second argument, on the failure handlers too. This
    call is the only one when the callback returns normally. *)
Theorem ajax_reports_what_the_transport_has
        (env : environment) (cors : bool) (callback : callable W) (w : W)
        (req : nat) (r : request W) (events : list host_event)
        (e : host_event) (payload : value) :
  ajax env cors callback req = Return r →
  List.find completes events = Some e →
  req_status (now e) ≠ VUndefined →
  response_payload (defaults (on e)).2 (now e) = Return payload →
  (∃ rest,
     calls (deliver r events (start w))
     = Call VUndefined [req_status (now e); payload; VObj req] :: rest
     ∧ (returns_normally callback → rest = []))
  ∧ (truthy (req_response (now e)) = true →
     payload = req_response (now e))
  ∧ (∀ text, truthy (req_response (now e)) = false →
             req_responseText (now e) = Return text →
             truthy text = true →
             payload = text).
Proof.
  intros Hajax Hfind Hstatus Hpayload.
  unfold ajax in Hajax. destruct (getRequest env cors) as [k|]; [|discriminate].
  injection Hajax as <-. split; [|split].
  - apply (deliver_first_completion callback req k events e
             (Call VUndefined [req_status (now e); payload; VObj req])
             Hfind); [|reflexivity].
    unfold call_at, callback_arguments. rewrite Hpayload.
    by rewrite decide_False by exact Hstatus.
  - intros Hr. unfold response_payload in Hpayload. rewrite Hr in Hpayload.
    by injection Hpayload as <-.
  - intros text Hr Htext Ht. unfold response_payload in Hpayload.
    rewrite Hr, Htext in Hpayload. unfold or_else in Hpayload.
    rewrite Ht in Hpayload. by injection Hpayload as <-.
Qed.

End AjaxMoreFacts.

Lemma ajax_calls_throwing_callback_again_witness :
  let env := Ajax.Environment false true false in
  let callback : callable () := λ _ _ w, (Throw TypeError, w) in
  let done := Ajax.Transport (VNum 200) VUndefined (Return (VStr "ok")) 4 in
  let events := [Ajax.Fires Ajax.onreadystatechange done;
                 Ajax.Fires Ajax.onload done] in
  let r := Ajax.Request Ajax.XMLHttpRequest 7 (Ajax.handle callback 7) in
  Ajax.calls (Ajax.deliver r events (Ajax.start ()))
  = [Call VUndefined [VNum 200; VStr "ok"; VObj 7];
     Call VUndefined [VNum 200; VStr "ok"; VObj 7]].
Proof.
  intros env callback done events r.
  assert (Hthrows : AjaxCalls.always_throws callback)
    by (intros ???; by eexists _, _).
  destruct (ajax_calls_throwing_callback_again env false callback () 7 r events
              eq_refl Hthrows) as [Hcalls _].
  rewrite Hcalls. reflexivity.
Defined.

Lemma ajax_reports_what_the_transport_has_witness :
  let env := Ajax.Environment false true false in
  let callback : callable () := λ _ _ w, (Throw TypeError, w) in
  let failed := Ajax.Transport (VNum 0) VUndefined (Return (VStr "")) 4 in
  let events := [Ajax.Fires Ajax.onerror failed;
                 Ajax.Fires Ajax.onabort failed] in
  let r := Ajax.Request Ajax.XMLHttpRequest 7 (Ajax.handle callback 7) in
  ∃ rest,
    Ajax.calls (Ajax.deliver r events (Ajax.start ()))
    = Call VUndefined [VNum 0; VStr "Error"; VObj 7] :: rest.
Proof.
  intros env callback failed events r.
  destruct (ajax_reports_what_the_transport_has env false callback () 7 r
              events (Ajax.Fires Ajax.onerror failed) (VStr "Error")
              eq_refl eq_refl)
    as ((rest & Hcalls & _) & _); [discriminate|reflexivity|].
  exists rest. exact Hcalls.
Defined.

(** ** [unique]: what the result looks like *)

Section UniqueMoreFacts.
Import Unique.

(** One run of the loop from a cache and an accumulator, on elements
    whose strings are neither [hasOwnProperty] nor [__proto__]: the
    elements it adds are a subsequence of the array, their keys are new
    to the cache and pairwise different, and the keys of the array are in
    the cache or among those of the added elements. *)
Lemma forEach_adds (rest : list value) :
  "hasOwnProperty" ∉ to_string <$> rest →
  "__proto__" ∉ to_string <$> rest →
  ∀ (cache : gset string) (acc : list value),
    "hasOwnProperty" ∉ cache →
    ∃ cache' new,
      forEach rest (cache, acc) = Return (cache', acc ++ new)
      ∧ sublist new rest
      ∧ NoDup (to_string <$> new)
      ∧ (∀ v, v ∈ new → to_string v ∉ cache)
      ∧ (∀ v, v ∈ rest →
              to_string v ∈ cache ∨ to_string v ∈ to_string <$> new).
Proof.
  induction rest as [|v rest IH]; intros Hhas Hproto cache acc Hcache.
  - exists cache, []. cbn. rewrite app_nil_r.
    split; [done|]. split; [constructor|]. split; [constructor|].
    split; intros x Hx; by apply elem_of_nil in Hx.
  - cbn [fmap list_fmap] in Hhas, Hproto.
    apply not_elem_of_cons in Hhas as [Hvh Hhas].
    apply not_elem_of_cons in Hproto as [Hvp Hproto].
    cbn [forEach]. unfold visit.
    rewrite (bool_decide_false ("hasOwnProperty" ∈ cache)) by done.
    destruct (bool_decide_reflect (to_string v ∈ cache)) as [Hin|Hout].
    + destruct (IH Hhas Hproto cache acc Hcache)
        as (cache' & new & Hacc & Hsub & Hnd & Hfresh & Hcover).
      exists cache', new. split; [exact Hacc|].
      split; [by apply sublist_cons|].
      split; [exact Hnd|]. split; [exact Hfresh|].
      intros x Hx. apply elem_of_cons in Hx as [->|Hx];
        [by left|by apply Hcover].
    + rewrite (bool_decide_false (to_string v = "__proto__")) by done.
      destruct (IH Hhas Hproto ({[to_string v]} ∪ cache) (acc ++ [v]))
        as (cache' & new & Hacc & Hsub & Hnd & Hfresh & Hcover).
      { rewrite elem_of_union, elem_of_singleton. intros [?|?]; done. }
      assert (Hv : ∀ x, x ∈ new → to_string x ≠ to_string v).
      { intros x Hx Heq. apply (Hfresh x Hx).
        rewrite elem_of_union, elem_of_singleton. by left. }
      exists cache', (v :: new).
      split; [by rewrite Hacc, <- app_assoc|].
      split; [by apply sublist_skip|].
      split.
      { cbn. constructor; [|exact Hnd].
        intros Hmem. apply list_elem_of_fmap in Hmem as (x & Heq & Hx).
        by apply (Hv x Hx). }
      split.
      { intros x Hx. apply elem_of_cons in Hx as [->|Hx]; [done|].
        intros Hc. apply (Hfresh x Hx).
        rewrite elem_of_union. by right. }
      intros x Hx. cbn. rewrite elem_of_cons.
      apply elem_of_cons in Hx as [->|Hx]; [right; by left|].
      destruct (Hcover x Hx) as [Hsome|Hnew]; [|right; by right].
      apply elem_of_union in Hsome as [Hsome|Hsome]; [|by left].
      apply elem_of_singleton in Hsome. right. by left.
Qed.

(** On such elements, when their keys are pairwise different and new to
    the cache, the loop adds every element. *)
Lemma forEach_keeps_all (l : list value) :
  "hasOwnProperty" ∉ to_string <$> l →
  "__proto__" ∉ to_string <$> l →
  NoDup (to_string <$> l) →
  ∀ (cache : gset string) (acc : list value),
    "hasOwnProperty" ∉ cache →
    (∀ v, v ∈ l → to_string v ∉ cache) →
    ∃ cache', forEach l (cache, acc) = Return (cache', acc ++ l).
Proof.
  induction l as [|v l IH]; intros Hhas Hproto Hnd cache acc Hcache Hfresh.
  - exists cache. cbn. by rewrite app_nil_r.
  - cbn [fmap list_fmap] in Hhas, Hproto, Hnd.
    apply not_elem_of_cons in Hhas as [Hvh Hhas].
    apply not_elem_of_cons in Hproto as [Hvp Hproto].
    apply NoDup_cons in Hnd as [Hv Hnd].
    cbn [forEach]. unfold visit.
    rewrite (bool_decide_false ("hasOwnProperty" ∈ cache)) by done.
    rewrite (bool_decide_false (to_string v ∈ cache))
      by (apply Hfresh; by left).
    rewrite (bool_decide_false (to_string v = "__proto__")) by done.
    destruct (IH Hhas Hproto Hnd ({[to_string v]} ∪ cache) (acc ++ [v]))
      as [cache' ->].
    + rewrite elem_of_union, elem_of_singleton. intros [?|?]; done.
    + intros x Hx. rewrite elem_of_union, elem_of_singleton.
      intros [Heq|Hc].
      * apply Hv. rewrite <- Heq. by apply list_elem_of_fmap_2.
      * apply (Hfresh x); [by right|done].
    + exists cache'. by rewrite <- app_assoc.
Qed.

(** X11: [unique] on an array none of whose elements has the string
    [hasOwnProperty] or [__proto__]: it returns a subsequence of the array
    in which no two elements have the same string-coerced key, every key
    of the array occurs in it, and applying [unique] again changes
    nothing. *)
Theorem unique_is_idempotent (arr : list value) :
  "hasOwnProperty" ∉ to_string <$> arr →
  "__proto__" ∉ to_string <$> arr →
  ∃ r,
    unique arr = Return r
    ∧ sublist r arr
    ∧ NoDup (to_string <$> r)
    ∧ (∀ v, v ∈ arr → to_string v ∈ to_string <$> r)
    ∧ unique r = Return r.
Proof.
  intros Hhas Hproto. unfold unique.
  assert (Hempty : "hasOwnProperty" ∉ (∅ : gset string))
    by apply not_elem_of_empty.
  destruct (forEach_adds arr Hhas Hproto ∅ [] Hempty)
    as (cache' & r & Hacc & Hsub & Hnd & _ & Hcover).
  cbn [app] in Hacc. exists r. rewrite Hacc. cbn [snd].
  split; [done|]. split; [exact Hsub|]. split; [exact Hnd|]. split.
  - intros v Hv. destruct (Hcover v Hv) as [Hc|Hnew]; [|exact Hnew].
    by apply not_elem_of_empty in Hc.
  - assert (Hkeys : ∀ k, k ∉ to_string <$> arr → k ∉ to_string <$> r).
    { intros k Hk Hin. apply Hk.
      apply list_elem_of_fmap in Hin as (x & -> & Hx).
      apply list_elem_of_fmap_2. by apply (elem_of_sublist r arr). }
    destruct (forEach_keeps_all r (Hkeys _ Hhas) (Hkeys _ Hproto) Hnd
                                ∅ [] Hempty) as [cache'' ->]; [|done].
    intros v _. apply not_elem_of_empty.
Qed.

End UniqueMoreFacts.

Lemma unique_is_idempotent_witness :
  ("hasOwnProperty" ∉ to_string <$> [VStr "b"; VNum 1; VStr "1"; VStr "b"])
  ∧ ("__proto__" ∉ to_string <$> [VStr "b"; VNum 1; VStr "1"; VStr "b"])
  ∧ Unique.unique [VStr "b"; VNum 1; VStr "1"; VStr "b"]
    = Return [VStr "b"; VNum 1]
  ∧ Unique.unique [VStr "b"; VNum 1] = Return [VStr "b"; VNum 1].
Proof.
  assert (H : ∀ k, k = "hasOwnProperty" ∨ k = "__proto__" →
                   k ∉ to_string <$> [VStr "b"; VNum 1; VStr "1"; VStr "b"]).
  { intros k Hk Hin. apply list_elem_of_fmap in Hin as (x & Hx & Hin).
    rewrite !elem_of_cons in Hin.
    destruct Hin as [->|[->|[->|[->|Hin]]]];
      [destruct Hk as [->| ->]; vm_compute in Hx; discriminate ..|].
    by apply elem_of_nil in Hin. }
  split; [apply H; by left|]. split; [apply H; by right|].
  destruct (unique_is_idempotent _ (H _ (or_introl eq_refl))
                                 (H _ (or_intror eq_refl)))
    as (r & Hr & _ & _ & _ & Hagain).
  assert (Heq : r = [VStr "b"; VNum 1]).
  { vm_compute in Hr. by injection Hr as <-. }
  subst r. split; [reflexivity | exact Hagain].
Defined.

(** ** Strings *)

Section StringFacts.

Lemma string_app_nil_l (t : string) : "" +:+ t = t.
Proof. reflexivity. Qed.

Lemma string_app_cons (c : ascii) (s t : string) :
  String c s +:+ t = String c (s +:+ t).
Proof. reflexivity. Qed.

Lemma string_app_nil_r (s : string) : s +:+ "" = s.
Proof.
  induction s as [|c s IH]; [done|]. by rewrite string_app_cons, IH.
Qed.

Lemma string_app_assoc (s t u : string) : (s +:+ t) +:+ u = s +:+ t +:+ u.
Proof.
  induction s as [|c s IH]; [done|]. by rewrite !string_app_cons, IH.
Qed.

Lemma string_length_app (s t : string) :
  String.length (s +:+ t) = (String.length s + String.length t)%nat.
Proof.
  induction s as [|c s IH]; [done|]. rewrite string_app_cons. cbn.
  by rewrite IH.
Qed.

Lemma string_get_app_l (s t : string) (n : nat) :
  (n < String.length s)%nat → String.get n (s +:+ t) = String.get n s.
Proof.
  revert n. induction s as [|c s IH]; intros n Hn; [cbn in Hn; lia|].
  rewrite string_app_cons. destruct n as [|n]; [done|].
  cbn in *. apply IH. lia.
Qed.

Lemma string_get_app_r (s t : string) (n : nat) :
  String.get (String.length s + n) (s +:+ t) = String.get n t.
Proof.
  induction s as [|c s IH]; [done|]. rewrite string_app_cons. exact IH.
Qed.

Lemma string_substring_prefix (s t : string) :
  String.substring 0 (String.length s) (s +:+ t) = s.
Proof.
  induction s as [|c s IH]; [by destruct t|].
  rewrite string_app_cons. cbn. by rewrite IH.
Qed.

Lemma string_substring_all (s : string) :
  String.substring 0 (String.length s) s = s.
Proof. induction s as [|c s IH]; [done|]. cbn. by rewrite IH. Qed.

End StringFacts.

(** ** [concatUrls]: fragments joined by single slashes *)

Section ConcatUrlsMoreFacts.
Import ConcatUrls ConcatUrlsShapes.

Lemma last_char_with_slash (s : string) :
  char_at (s +:+ "/") (str_length (s +:+ "/") - 1) = Some slash.
Proof.
  unfold char_at, str_length. rewrite string_length_app. cbn.
  replace (Z.of_nat (String.length s + 1) - 1) with (Z.of_nat (String.length s))
    by lia.
  replace (Z.of_nat (String.length s) <? 0) with false
    by (symmetry; apply Z.ltb_ge; lia).
  rewrite Nat2Z.id.
  rewrite <- (Nat.add_0_r (String.length s)) at 1.
  by rewrite string_get_app_r.
Qed.

Lemma drop_last_slash (s : string) :
  substr (s +:+ "/") 0 (str_length (s +:+ "/") - 1) = s.
Proof.
  unfold substr, str_length. rewrite string_length_app. cbn.
  replace (Z.to_nat (Z.of_nat (String.length s + 1) - 1))
    with (String.length s) by lia.
  apply string_substring_prefix.
Qed.

Lemma plain_with_slash (p : string) (t : bool) :
  plain p →
  (if is_slash (char_at (p +:+ opt_slash t)
                        (str_length (p +:+ opt_slash t) - 1))
   then p +:+ opt_slash t
   else (p +:+ opt_slash t) +:+ "/")
  = p +:+ "/".
Proof.
  intros (Hne & _ & Hlast). destruct t; cbn [opt_slash].
  - rewrite last_char_with_slash. unfold is_slash.
    by rewrite bool_decide_true.
  - rewrite string_app_nil_r. unfold is_slash.
    by rewrite bool_decide_false.
Qed.

(** The [forEach] callback on a decorated plain fragment appends the
    fragment without its slashes, and one slash. *)
Lemma append_fragment_written (cString : string) (d : decorated) :
  plain (core d) →
  append_fragment cString (AStr (written d)) = cString +:+ core d +:+ "/".
Proof.
  intros Hp. pose proof Hp as (Hne & Hfirst & Hlast).
  destruct d as [l p t]. cbn [core lead trail written] in *.
  unfold append_fragment, written. cbn [is_falsy coerce lead core trail].
  assert (Hnonempty : String.eqb (opt_slash l +:+ p +:+ opt_slash t) "" = false).
  { apply String.eqb_neq. destruct l; cbn; [done|].
    destruct p; [done|]. done. }
  rewrite Hnonempty. change (trim "") with "". rewrite string_app_nil_r.
  f_equal.
  assert (Hstrip :
    (if is_slash (char_at (opt_slash l +:+ p +:+ opt_slash t) 0)
     then substr_from (opt_slash l +:+ p +:+ opt_slash t) 1
     else opt_slash l +:+ p +:+ opt_slash t) = p +:+ opt_slash t).
  { destruct l; cbn [opt_slash].
    - rewrite string_app_cons, string_app_nil_l.
      unfold char_at, is_slash, substr_from. cbn.
      by rewrite Nat.sub_0_r, string_substring_all.
    - rewrite string_app_nil_l.
      assert (Hhead : char_at (p +:+ opt_slash t) 0 = char_at p 0).
      { destruct p; [done|]. by rewrite string_app_cons. }
      rewrite Hhead. unfold is_slash. by rewrite bool_decide_false. }
  rewrite Hstrip. by apply plain_with_slash.
Qed.

Lemma append_fragments_written (ds : list decorated) :
  Forall (λ d, plain (core d)) ds →
  ∀ cString : string,
    foldl append_fragment cString (AStr ∘ written <$> ds)
    = cString +:+ foldr (λ q acc, q +:+ "/" +:+ acc) "" (core <$> ds).
Proof.
  induction 1 as [|d ds Hd Hds IH]; intros cString.
  - cbn. by rewrite string_app_nil_r.
  - cbn [fmap list_fmap foldl foldr compose].
    rewrite append_fragment_written by done.
    rewrite (IH (cString +:+ core d +:+ "/")).
    by rewrite !string_app_assoc.
Qed.

Lemma concat_with_slashes (p : string) (ps : list string) :
  p +:+ "/" +:+ foldr (λ q acc, q +:+ "/" +:+ acc) "" ps
  = String.concat "/" (p :: ps) +:+ "/".
Proof.
  revert p. induction ps as [|q ps IH]; intros p; [done|].
  cbn [foldr]. rewrite IH.
  change (String.concat "/" (p :: q :: ps))
    with (p +:+ "/" +:+ String.concat "/" (q :: ps)).
  by rewrite !string_app_assoc.
Qed.

(** X12: [concatUrls]: plain fragments, each written with or without a slash
    before and after it (the first one without white space around it and
    without a slash before it), are joined by single slashes, and the
    result carries none of these slashes at its ends. *)
Theorem concatUrls_joins_with_single_slashes
        (first : string) (slashed : bool) (ds : list decorated) :
  plain first →
  trim (first +:+ opt_slash slashed) = first +:+ opt_slash slashed →
  Forall (λ d, plain (core d)) ds →
  concatUrls (AStr (first +:+ opt_slash slashed) :: (AStr ∘ written <$> ds))
  = Return (String.concat "/" (first :: (core <$> ds))).
Proof.
  intros Hfirst Htrim Hds.
  unfold concatUrls. cbn [select_fragments first_fragment tail].
  rewrite Htrim, plain_with_slash by done.
  rewrite append_fragments_written by done.
  rewrite string_app_assoc, concat_with_slashes.
  by rewrite drop_last_slash.
Qed.

Lemma concatUrls_joins_with_single_slashes_witness :
  plain "a" ∧ trim "a/" = "a/"
  ∧ concatUrls [AStr "a/"; AStr "/b"; AStr "c/"; AStr "/d/"; AStr "e"]
    = Return "a/b/c/d/e".
Proof.
  assert (Hp : plain "a") by (repeat split; vm_compute; discriminate).
  split; [exact Hp|]. split; [reflexivity|].
  apply (concatUrls_joins_with_single_slashes
           "a" true
           [Decorated true "b" false; Decorated false "c" true;
            Decorated true "d" true; Decorated false "e" false]).
  - exact Hp.
  - reflexivity.
  - repeat constructor; vm_compute; discriminate.
Defined.

End ConcatUrlsMoreFacts.

(** ** [getTypeName] *)

Section TypeNamesFacts.
Import TypeNames.

Lemma indexOf_from_absent (c : ascii) (s : string) :
  occurs c s = false → ∀ i, indexOf_from c s i = -1.
Proof.
  induction s as [|x s IH]; intros Hs i; [done|].
  cbn [indexOf_from occurs] in *. apply orb_false_iff in Hs as [Hx Hs].
  apply bool_decide_eq_false in Hx. rewrite decide_False by done.
  by apply IH.
Qed.

Lemma indexOf_from_first (c : ascii) (s t : string) :
  occurs c s = false →
  ∀ i, indexOf_from c (s +:+ String c t) i = i + Z.of_nat (String.length s).
Proof.
  induction s as [|x s IH]; intros Hs i.
  - rewrite string_app_nil_l. cbn [indexOf_from String.length].
    rewrite decide_True by done. lia.
  - rewrite string_app_cons. cbn [indexOf_from occurs String.length] in *.
    apply orb_false_iff in Hs as [Hx Hs].
    apply bool_decide_eq_false in Hx. rewrite decide_False by done.
    rewrite IH by done. lia.
Qed.

Lemma lastIndexOf_from_absent (c : ascii) (s : string) :
  occurs c s = false → ∀ i found, lastIndexOf_from c s i found = found.
Proof.
  induction s as [|x s IH]; intros Hs i found; [done|].
  cbn [lastIndexOf_from occurs] in *. apply orb_false_iff in Hs as [Hx Hs].
  apply bool_decide_eq_false in Hx. rewrite decide_False by done.
  by apply IH.
Qed.

Lemma lastIndexOf_from_last (c : ascii) (s t : string) :
  occurs c t = false →
  ∀ i found,
    lastIndexOf_from c (s +:+ String c t) i found
    = i + Z.of_nat (String.length s).
Proof.
  intros Ht. induction s as [|x s IH]; intros i found.
  - rewrite string_app_nil_l. cbn [lastIndexOf_from String.length].
    rewrite decide_True by done.
    rewrite lastIndexOf_from_absent by done. lia.
  - rewrite string_app_cons. cbn [lastIndexOf_from String.length].
    rewrite IH. lia.
Qed.

Lemma substring_suffix (s t : string) :
  String.substring (String.length s) (String.length t) (s +:+ t) = t.
Proof.
  induction s as [|x s IH]; [apply string_substring_all|].
  rewrite string_app_cons. exact IH.
Qed.

Lemma substr_from_suffix (s t : string) :
  substr_from (s +:+ t) (String.length s) = t.
Proof.
  unfold substr_from. rewrite string_length_app.
  replace (String.length s + String.length t - String.length s)%nat
    with (String.length t) by lia.
  apply substring_suffix.
Qed.

(** X13: [getTypeName]: of a type string [Name.Space.Leaf, Assembly] the result
    is [Leaf], the part between the last period before the first comma
    and that comma; when no period precedes the comma the result is all
    that precedes it. *)
Theorem getTypeName_is_leaf_before_comma
        (namespace leaf assembly : string) :
  occurs comma namespace = false →
  occurs comma leaf = false →
  occurs period leaf = false →
  getTypeName (namespace +:+ String period leaf +:+ String comma assembly)
  = leaf
  ∧ getTypeName (leaf +:+ String comma assembly) = leaf.
Proof.
  intros Hns Hleaf Hdot.
  assert (Hocc : ∀ s t, occurs comma s = false → occurs comma t = false →
                        occurs comma (s +:+ String period t) = false).
  { intros s t Hs Ht. induction s as [|x s IH].
    - rewrite string_app_nil_l. cbn [occurs]. rewrite Ht.
      by rewrite bool_decide_false.
    - rewrite string_app_cons. cbn [occurs] in *.
      apply orb_false_iff in Hs as [-> Hs]. by apply IH. }
  split.
  - unfold getTypeName, indexOf, lastIndexOf.
    rewrite <- string_app_assoc.
    rewrite indexOf_from_first by (by apply Hocc).
    unfold substr. rewrite Z.add_0_l, Nat2Z.id, string_substring_prefix.
    rewrite lastIndexOf_from_last by done.
    replace (Z.to_nat (0 + Z.of_nat (String.length namespace) + 1))
      with (String.length (namespace +:+ String period "")) 
      by (rewrite string_length_app; cbn; lia).
    replace (namespace +:+ String period leaf)
      with ((namespace +:+ String period "") +:+ leaf)
      by (by rewrite string_app_assoc).
    apply substr_from_suffix.
  - unfold getTypeName, indexOf, lastIndexOf.
    rewrite indexOf_from_first by done.
    unfold substr. rewrite Z.add_0_l, Nat2Z.id, string_substring_prefix.
    rewrite lastIndexOf_from_absent by done.
    unfold substr_from. cbn. by rewrite Nat.sub_0_r, string_substring_all.
Qed.

Lemma getTypeName_is_leaf_before_comma_witness :
  getTypeName "Solution.Project.Entities.MyClass, Solution.Project" = "MyClass"
  ∧ getTypeName "MyClass, Solution.Project" = "MyClass".
Proof.
  apply (getTypeName_is_leaf_before_comma
           "Solution.Project.Entities" "MyClass" " Solution.Project");
    reflexivity.
Defined.

(** X14: [getTypeName]: a type string without a comma gives the empty string,
    whatever periods it contains. *)
Theorem getTypeName_without_comma_is_empty (typeString : string) :
  occurs comma typeString = false → getTypeName typeString = "".
Proof.
  intros Hs. unfold getTypeName, indexOf.
  rewrite indexOf_from_absent by done.
  assert (Hempty : substr typeString 0 (-1) = "")
    by (by destruct typeString).
  rewrite Hempty. reflexivity.
Qed.

Lemma getTypeName_without_comma_is_empty_witness :
  getTypeName "Solution.Project.Entities.MyClass" = "".
Proof.
  apply getTypeName_without_comma_is_empty. reflexivity.
Defined.

End TypeNamesFacts.

(** ** [urlIsAbsolute] and [urlIsLocal] *)

Section UrlsFacts.
Import Urls.

Lemma to_lower_idempotent (c : ascii) : to_lower (to_lower c) = to_lower c.
Proof. destruct c as [[] [] [] [] [] [] [] []]; reflexivity. Qed.

Lemma toLowerCase_idempotent (s : string) :
  toLowerCase (toLowerCase s) = toLowerCase s.
Proof.
  induction s as [|c s IH]; [done|]. cbn. by rewrite to_lower_idempotent, IH.
Qed.

Lemma toLowerCase_app (s t : string) :
  toLowerCase (s +:+ t) = toLowerCase s +:+ toLowerCase t.
Proof.
  induction s as [|c s IH]; [done|].
  rewrite string_app_cons. cbn. by rewrite IH, string_app_cons.
Qed.

Lemma prefix_app (p s t : string) :
  String.prefix p s = true → String.prefix p (s +:+ t) = true.
Proof.
  revert s. induction p as [|c p IH]; intros s Hp.
  - by destruct (s +:+ t).
  - destruct s as [|x s]; [done|]. rewrite string_app_cons. cbn in *.
    destruct (Ascii.ascii_dec c x); [by apply IH|done].
Qed.

Lemma prefix_self_app (p t : string) : String.prefix p (p +:+ t) = true.
Proof.
  induction p as [|c p IH]; [by destruct t|].
  rewrite string_app_cons. cbn. by destruct (Ascii.ascii_dec c c).
Qed.

Lemma prefix_length (p s : string) :
  String.prefix p s = true → (String.length p ≤ String.length s)%nat.
Proof.
  revert s. induction p as [|c p IH]; intros s Hp; [cbn; lia|].
  destruct s as [|x s]; [done|]. cbn in *.
  destruct (Ascii.ascii_dec c x); [|done]. apply IH in Hp. lia.
Qed.

Lemma toLowerCase_length (s : string) :
  String.length (toLowerCase s) = String.length s.
Proof. induction s as [|c s IH]; [done|]. cbn. by rewrite IH. Qed.

(** X15: [urlIsAbsolute] and [urlIsLocal] on a protocol-relative URL
    ([//host/path]): it is absolute only when the second argument asks
    for it, and [urlIsLocal], which does not ask, reports it as local
    whatever host it names. *)
Theorem protocol_relative_url_is_local (loc : location) (rest : string) :
  urlIsAbsolute ("//" +:+ rest) true = true
  ∧ urlIsAbsolute ("//" +:+ rest) false = false
  ∧ urlIsLocal loc ("//" +:+ rest) = true.
Proof.
  assert (Hrel : urlIsAbsolute ("//" +:+ rest) false = false).
  { unfold urlIsAbsolute, starts_with.
    rewrite toLowerCase_app. reflexivity. }
  split; [|split; [exact Hrel|]].
  - unfold urlIsAbsolute, starts_with.
    rewrite toLowerCase_app. change (toLowerCase "//") with "//".
    by rewrite prefix_self_app.
  - unfold urlIsLocal. by rewrite Hrel.
Qed.

(** X16: [urlIsAbsolute] and [urlIsLocal] do not depend on the case of the
    URL. When the page's own origin is an absolute URL, a URL made of
    that origin, a slash and any path is local, and the origin alone,
    without the slash, is not. *)
Theorem urlIsLocal_compares_with_origin_and_slash
        (loc : location) (url path : string) (flag : bool) :
  urlIsAbsolute (toLowerCase url) flag = urlIsAbsolute url flag
  ∧ urlIsLocal loc (toLowerCase url) = urlIsLocal loc url
  ∧ (urlIsAbsolute (origin loc) false = true →
     urlIsLocal loc (origin loc +:+ "/" +:+ path) = true
     ∧ urlIsLocal loc (origin loc) = false).
Proof.
  assert (Hcase : ∀ f, urlIsAbsolute (toLowerCase url) f = urlIsAbsolute url f).
  { intros f. unfold urlIsAbsolute. by rewrite toLowerCase_idempotent. }
  split; [apply Hcase|]. split.
  - unfold urlIsLocal. by rewrite Hcase, toLowerCase_idempotent.
  - intros Habs.
    assert (Hdomain : protocol loc +:+ "//" +:+ host loc +:+ "/"
                      = origin loc +:+ "/").
    { unfold origin. by rewrite !string_app_assoc. }
    split.
    + unfold urlIsLocal. rewrite Hdomain.
      assert (Habs' : urlIsAbsolute (origin loc +:+ "/" +:+ path) false = true).
      { unfold urlIsAbsolute, starts_with in *. cbn [andb] in *.
        rewrite toLowerCase_app.
        apply orb_true_iff in Habs as [Habs|Habs];
          [apply orb_true_iff in Habs as [Habs|Habs]|];
          rewrite (prefix_app _ _ _ Habs); by rewrite ?orb_true_r. }
      rewrite Habs'. cbn [negb]. unfold starts_with.
      rewrite <- string_app_assoc, (toLowerCase_app (origin loc +:+ "/")).
      apply prefix_self_app.
    + unfold urlIsLocal. rewrite Habs, Hdomain. cbn [negb].
      unfold starts_with.
      destruct (String.prefix (toLowerCase (origin loc +:+ "/"))
                              (toLowerCase (origin loc))) eqn:Hp; [|done].
      apply prefix_length in Hp.
      rewrite !toLowerCase_length, string_length_app in Hp. cbn in Hp. lia.
Qed.

Lemma urlIsLocal_compares_with_origin_and_slash_witness :
  let loc := Location "https:" "Example.com" in
  urlIsAbsolute (origin loc) false = true
  ∧ urlIsLocal loc "HTTPS://example.COM/a/b" = true
  ∧ urlIsLocal loc "https://Example.com" = false.
Proof.
  intros loc.
  assert (Habs : urlIsAbsolute (origin loc) false = true) by reflexivity.
  destruct (urlIsLocal_compares_with_origin_and_slash loc "x" "a/b" false)
    as (_ & _ & Hlocal).
  destruct (Hlocal Habs) as [_ Hbare].
  split; [exact Habs|]. split; [reflexivity|exact Hbare].
Defined.

End UrlsFacts.

(** ** [makeReadableUrlSafe] *)

Section UrlSafeFacts.
Import UrlSafe.

Lemma replace_app (r : replacement) (s t : string) :
  replace r (s +:+ t) = replace r s +:+ replace r t.
Proof.
  induction s as [|c s IH]; [done|].
  rewrite string_app_cons. cbn [replace]. by rewrite IH, string_app_assoc.
Qed.

Lemma replaceArray_app (rs : list replacement) :
  ∀ s t, replaceArray (s +:+ t) rs = replaceArray s rs +:+ replaceArray t rs.
Proof.
  unfold replaceArray. induction rs as [|r rs IH]; intros s t; [done|].
  cbn [foldl]. by rewrite replace_app, IH.
Qed.

Lemma replaceArray_nil (rs : list replacement) : replaceArray "" rs = "".
Proof. unfold replaceArray. induction rs as [|r rs IH]; [done|exact IH]. Qed.

(** What the table makes of one character is made of safe characters,
    and a safe character is left as it is. *)
Lemma replacements_on_char (c : ascii) :
  all_chars is_url_safe (replaceArray (String c "") replacements) = true
  ∧ (is_url_safe c = true →
     replaceArray (String c "") replacements = String c "")
  ∧ (is_url_safe c = true → is_white_space c = false).
Proof. destruct c as [[] [] [] [] [] [] [] []]; vm_compute; repeat split; done. Qed.

Lemma all_chars_app (p : ascii → bool) (s t : string) :
  all_chars p (s +:+ t) = all_chars p s && all_chars p t.
Proof.
  induction s as [|c s IH]; [done|].
  rewrite string_app_cons. cbn. by rewrite IH, andb_assoc.
Qed.

Lemma replaceArray_safe (s : string) :
  all_chars is_url_safe (replaceArray s replacements) = true.
Proof.
  induction s as [|c s IH]; [by rewrite replaceArray_nil|].
  change (String c s) with (String c "" +:+ s).
  rewrite replaceArray_app, all_chars_app, IH.
  by rewrite (proj1 (replacements_on_char c)).
Qed.

Lemma replaceArray_of_safe (s : string) :
  all_chars is_url_safe s = true → replaceArray s replacements = s.
Proof.
  induction s as [|c s IH]; intros Hs; [by rewrite replaceArray_nil|].
  cbn in Hs. apply andb_true_iff in Hs as [Hc Hs].
  change (String c s) with (String c "" +:+ s).
  rewrite replaceArray_app, IH by done.
  by rewrite (proj1 (proj2 (replacements_on_char c)) Hc).
Qed.

Lemma trim_end_of_safe (s : string) :
  all_chars is_url_safe s = true → trim_end s = s.
Proof.
  induction s as [|c s IH]; intros Hs; [done|].
  cbn in Hs. apply andb_true_iff in Hs as [Hc Hs].
  cbn [trim_end]. rewrite IH by done.
  destruct s; [|done].
  by rewrite (proj2 (proj2 (replacements_on_char c)) Hc).
Qed.

Lemma trim_of_safe (s : string) :
  all_chars is_url_safe s = true → trim s = s.
Proof.
  intros Hs. unfold trim.
  assert (Hstart : trim_start s = s).
  { destruct s as [|c s]; [done|]. cbn in *.
    apply andb_true_iff in Hs as [Hc _].
    by rewrite (proj2 (proj2 (replacements_on_char c)) Hc). }
  rewrite Hstart. by apply trim_end_of_safe.
Qed.

(** X17: [makeReadableUrlSafe]: the result holds only letters [a-z] and [A-Z],
    digits, hyphens and underscores; a string made of such characters is
    returned as it is, so cleaning a cleaned string changes nothing. *)
Theorem makeReadableUrlSafe_is_safe_and_idempotent (unsafeString : string) :
  all_chars is_url_safe (makeReadableUrlSafe unsafeString) = true
  ∧ (all_chars is_url_safe unsafeString = true →
     makeReadableUrlSafe unsafeString = unsafeString)
  ∧ makeReadableUrlSafe (makeReadableUrlSafe unsafeString)
    = makeReadableUrlSafe unsafeString.
Proof.
  assert (Hkeep : ∀ s, all_chars is_url_safe s = true →
                       makeReadableUrlSafe s = s).
  { intros s Hs. unfold makeReadableUrlSafe.
    rewrite trim_of_safe by done. by apply replaceArray_of_safe. }
  split; [apply replaceArray_safe|]. split; [apply Hkeep|].
  apply Hkeep, replaceArray_safe.
Qed.

Lemma makeReadableUrlSafe_is_safe_and_idempotent_witness :
  all_chars is_url_safe "Hello-World_2" = true
  ∧ makeReadableUrlSafe "Hello-World_2" = "Hello-World_2".
Proof.
  split; [reflexivity|].
  apply (proj1 (proj2 (makeReadableUrlSafe_is_safe_and_idempotent
                         "Hello-World_2"))).
  reflexivity.
Defined.

Lemma replacements_translate_char (c : ascii) :
  replaceArray (String c "") replacements = translate c.
Proof. destruct c as [[] [] [] [] [] [] [] []]; reflexivity. Qed.

(** X18: [makeReadableUrlSafe]: after the trimming, each character is
    translated on its own, the nine replacements in a row having the
    effect of one pass: white space becomes a hyphen, a period an
    underscore, the letters 230, 198, 248, 216, 229 and 197 become [ae],
    [AE], [o], [O], [a] and [A], safe characters stay, and every other
    character is removed. *)
Theorem makeReadableUrlSafe_translates_each_character
        (unsafeString : string) :
  makeReadableUrlSafe unsafeString = translate_all (trim unsafeString).
Proof.
  unfold makeReadableUrlSafe. generalize (trim unsafeString). intros s.
  induction s as [|c s IH]; [by rewrite replaceArray_nil|].
  change (String c s) with (String c "" +:+ s).
  rewrite replaceArray_app, IH, replacements_translate_char.
  reflexivity.
Qed.

End UrlSafeFacts.

(** ** [find] *)

Section FindFacts.
Import Find.
Context {W : Type}.

Lemma some_visits (p : value → bool) (callback : callable W)
      (thisArg arr : value) (rest : list value) :
  decides p callback →
  ∀ (idx : nat) (w : W) (log : list call),
    (some callback thisArg arr idx rest w log).1.1
    = Return (default VUndefined (List.find p rest))
    ∧ (some callback thisArg arr idx rest w log).2
      = log ++ imap (λ i el, Call thisArg [el; VNum (Z.of_nat (idx + i)); arr])
                    (through_first p rest).
Proof.
  intros Hp. induction rest as [|el rest IH]; intros idx w log.
  - cbn. by rewrite app_nil_r.
  - cbn [some List.find through_first].
    destruct (Hp thisArg el (VNum (Z.of_nat idx)) arr w) as (r & w' & -> & Hr).
    rewrite Hr. destruct (p el).
    + cbn. by rewrite Nat.add_0_r.
    + destruct (IH (S idx) w' (log ++ [Call thisArg [el; VNum (Z.of_nat idx); arr]]))
        as [Hres Hlog].
      split; [exact Hres|]. rewrite Hlog, <- app_assoc. cbn.
      rewrite Nat.add_0_r. f_equal. f_equal.
      apply imap_ext. intros i x _. cbn. by rewrite Nat.add_succ_r.
Qed.

(** X19: [find]: with a callback whose answer depends on the element only, the
    result is the first element the callback accepts, [undefined] when it
    accepts none; the callback is called once for each element up to that
    one, in order, with [thisArg] as receiver and the element, its index
    and the array as arguments, and never for a later element. *)
Theorem find_returns_first_match
        (p : value → bool) (callback : callable W) (arr thisArg : value)
        (elements : list value) (w : W) :
  decides p callback →
  (find arr elements callback thisArg w).1.1
  = Return (default VUndefined (List.find p elements))
  ∧ (find arr elements callback thisArg w).2
    = imap (λ i el, Call thisArg [el; VNum (Z.of_nat i); arr])
           (through_first p elements).
Proof.
  intros Hp. unfold find.
  destruct (some_visits p callback thisArg arr elements Hp 0 w []) as [Hr Hl].
  split; [exact Hr|]. rewrite Hl. reflexivity.
Qed.

End FindFacts.

Lemma find_returns_first_match_witness :
  let even : value → bool :=
    λ v, match v with VNum n => Z.even n | _ => false end in
  let callback : callable nat :=
    λ _ args n, (Return (VBool (even (nth 0 args VUndefined))), S n) in
  Find.decides even callback
  ∧ Find.find (VObj 9) [VNum 3; VNum 4; VNum 6] callback VNull 0%nat
    = (Return (VNum 4), 2%nat,
       [Call VNull [VNum 3; VNum 0; VObj 9];
        Call VNull [VNum 4; VNum 1; VObj 9]]).
Proof.
  intros even callback.
  assert (Hp : Find.decides even callback).
  { intros this el idx arr w. eexists _, _. split; [reflexivity|].
    cbn. by destruct (even el). }
  split; [exact Hp|].
  destruct (find_returns_first_match even callback (VObj 9) VNull
              [VNum 3; VNum 4; VNum 6] 0%nat Hp) as [Hr Hl].
  destruct (Find.find (VObj 9) [VNum 3; VNum 4; VNum 6] callback VNull 0%nat)
    as [[r w'] log] eqn:Hfind.
  cbn [fst snd] in Hr, Hl. subst r log.
  vm_compute in Hfind. injection Hfind as <-. reflexivity.
Defined.

(** ** Query strings *)

Section QueryStringsFacts.
Import QueryStrings.

Lemma occurs_app (c : ascii) (s t : string) :
  occurs c (s +:+ t) = occurs c s || occurs c t.
Proof.
  induction s as [|x s IH]; [done|].
  rewrite string_app_cons. cbn [occurs]. by rewrite IH, orb_assoc.
Qed.

Lemma split_absent (c : ascii) (s : string) :
  occurs c s = false → split c s = [s].
Proof.
  induction s as [|x s IH]; intros Hs; [done|].
  cbn [occurs split] in *. apply orb_false_iff in Hs as [Hx Hs].
  apply bool_decide_eq_false in Hx. rewrite decide_False by done.
  by rewrite IH.
Qed.

Lemma split_first (c : ascii) (s t : string) :
  occurs c s = false → split c (s +:+ String c t) = s :: split c t.
Proof.
  induction s as [|x s IH]; intros Hs.
  - rewrite string_app_nil_l. cbn [split]. by rewrite decide_True.
  - rewrite string_app_cons. cbn [occurs split] in *.
    apply orb_false_iff in Hs as [Hx Hs].
    apply bool_decide_eq_false in Hx. rewrite decide_False by done.
    by rewrite IH.
Qed.

Lemma split_concat (c : ascii) (pieces : list string) :
  pieces ≠ [] →
  Forall (λ p, occurs c p = false) pieces →
  split c (String.concat (String c "") pieces) = pieces.
Proof.
  intros Hne Hall. induction Hall as [|p ps Hp Hps IH]; [done|].
  destruct ps as [|q ps].
  - cbn. by apply split_absent.
  - change (String.concat (String c "") (p :: q :: ps))
      with (p +:+ String c "" +:+ String.concat (String c "") (q :: ps)).
    rewrite string_app_cons, string_app_nil_l.
    rewrite split_first by done. f_equal. by apply IH.
Qed.

Context (encode : string → string) (decode : string → completion string).

Lemma store_survivor (qObj : gmap string value) (kv : string * value) :
  survives encode decode kv →
  store decode qObj (kv.1 +:+ "=" +:+ encode (to_string kv.2))
  = Return (<[kv.1 := VStr (to_string kv.2)]> qObj).
Proof.
  intros (Hp & Hk1 & Hk2 & Hdk & Hv1 & Hv2 & Hdv). unfold store.
  change (kv.1 +:+ "=" +:+ encode (to_string kv.2))
    with (kv.1 +:+ String equals (encode (to_string kv.2))).
  rewrite split_first by done. rewrite split_absent by done.
  cbn. rewrite Hdk, Hdv. unfold Property.write, Property.reaches_setter.
  rewrite bool_decide_false by (by intros [? _]). reflexivity.
Qed.

Lemma store_all_survivors (obj : list (string * value)) :
  Forall (survives encode decode) obj →
  ∀ qObj : gmap string value,
    store_all decode qObj
      ((λ kv, kv.1 +:+ "=" +:+ encode (to_string kv.2)) <$> obj)
    = Return (list_to_map
                (reverse ((λ kv, (kv.1, VStr (to_string kv.2))) <$> obj))
              ∪ qObj).
Proof.
  induction 1 as [|kv obj Hkv Hobj IH]; intros qObj.
  - cbn. by rewrite (left_id_L ∅ (∪)).
  - cbn [fmap list_fmap store_all]. rewrite store_survivor by done.
    rewrite IH. f_equal. rewrite reverse_cons, list_to_map_app.
    cbn. by rewrite insert_empty, <- (assoc_L (∪)), <- insert_union_singleton_l.
Qed.

(** X20: Round trip: the query string written by [objectToQueryString] (with
    no prefix or a prefix of one character) is read back by
    [queryStringAsObject] as the object with the same keys, each value
    turned into its string, provided every property survives the trip
    (see [survives]; a property named [__proto__] does not). *)
Theorem queryStringAsObject_reads_back
        (obj : list (string * value)) (prefix : option string) :
  NoDup obj.*1 →
  Forall (survives encode decode) obj →
  (∀ p, prefix = Some p → String.length p = 1%nat) →
  queryStringAsObject decode (objectToQueryString encode obj prefix)
  = Return (list_to_map ((λ kv, (kv.1, VStr (to_string kv.2))) <$> obj)).
Proof.
  intros Hnd Hobj Hprefix.
  set (pieces := (λ kv, kv.1 +:+ "=" +:+ encode (to_string kv.2)) <$> obj).
  assert (Hc : ∃ c, objectToQueryString encode obj prefix
                    = String c (String.concat "&" pieces)).
  { unfold objectToQueryString. fold pieces. destruct prefix as [p|].
    - specialize (Hprefix p eq_refl).
      destruct p as [|c [|]]; try done. eexists. reflexivity.
    - eexists. reflexivity. }
  destruct Hc as [c ->]. unfold queryStringAsObject.
  destruct obj as [|kv obj].
  { reflexivity. }
  assert (Hlen : (str_length (String c (String.concat "&" pieces)) <=? 1)
                 = false).
  { apply Z.leb_gt. unfold str_length. cbn [String.length].
    assert (1 ≤ String.length (String.concat "&" pieces))%nat; [|lia].
    subst pieces. cbn [fmap list_fmap].
    destruct (_ <$> obj); cbn [String.concat];
      rewrite !string_length_app; cbn; lia. }
  rewrite Hlen. cbn [String.eqb orb].
  assert (Hrest : substr_from (String c (String.concat "&" pieces)) 1
                  = String.concat "&" pieces).
  { unfold substr_from. cbn [String.length String.substring].
    replace (S (String.length (String.concat "&" pieces)) - 1)%nat
      with (String.length (String.concat "&" pieces)) by lia.
    apply string_substring_all. }
  rewrite Hrest.
  change (String.concat "&" pieces)
    with (String.concat (String ampersand "") pieces).
  rewrite (split_concat ampersand pieces).
  - subst pieces. rewrite store_all_survivors by done.
    rewrite (right_id_L ∅ (∪)). f_equal. symmetry.
    apply list_to_map_proper; [|symmetry; apply reverse_Permutation].
    rewrite <- list_fmap_compose. exact Hnd.
  - done.
  - subst pieces. apply Forall_fmap. eapply Forall_impl; [exact Hobj|].
    intros x (_ & Hk1 & _ & _ & Hv1 & _). cbn.
    rewrite !occurs_app, Hk1, Hv1. reflexivity.
Qed.

(** X21: A parameter written without an equals sign, whose decoded name
    is not [__proto__], gets the decoded string ["undefined"] as its
    value, not [undefined]. *)
Theorem queryStringAsObject_without_equals_sign
        (key k u : string) :
  key ≠ "" →
  occurs ampersand key = false → occurs equals key = false →
  decode key = Return k → decode "undefined" = Return u →
  k ≠ "__proto__" →
  queryStringAsObject decode ("?" +:+ key) = Return {[ k := VStr u ]}
  ∧ queryString decode ("?" +:+ key) k = Return (VStr u).
Proof.
  intros Hne Hamp Heq Hk Hu Hproto.
  assert (Hq : queryStringAsObject decode ("?" +:+ key)
               = Return {[ k := VStr u ]}).
  { unfold queryStringAsObject. rewrite string_app_cons, string_app_nil_l.
    replace (str_length (String "?" key) <=? 1) with false.
    2: { symmetry. apply Z.leb_gt. unfold str_length. destruct key; [done|].
         cbn. lia. }
    cbn [String.eqb orb].
    unfold substr_from. cbn [String.length String.substring].
    replace (S (String.length key) - 1)%nat with (String.length key) by lia.
    rewrite string_substring_all.
    rewrite split_absent by done. cbn [store_all]. unfold store.
    rewrite split_absent by done. cbn. rewrite Hk, Hu.
    unfold Property.write, Property.reaches_setter.
    rewrite bool_decide_false by (by intros [? _]).
    by rewrite insert_empty. }
  split; [exact Hq|]. unfold queryString. rewrite Hq.
  unfold get. by rewrite lookup_singleton_eq.
Qed.

End QueryStringsFacts.

Lemma queryStringAsObject_reads_back_witness :
  let obj := [("page", VNum 2); ("q", VStr "rocq")] in
  QueryStrings.objectToQueryString id obj None = "?page=2&q=rocq"
  ∧ QueryStrings.queryStringAsObject Return "?page=2&q=rocq"
    = Return (list_to_map [("page", VStr "2"); ("q", VStr "rocq")]).
Proof.
  intros obj. split; [reflexivity|].
  apply (queryStringAsObject_reads_back id Return obj None).
  - cbn. apply NoDup_cons. split; [|apply NoDup_singleton].
    intros Hin. apply list_elem_of_singleton in Hin. discriminate.
  - repeat constructor; discriminate.
  - discriminate.
Defined.

Lemma queryStringAsObject_without_equals_sign_witness :
  QueryStrings.queryStringAsObject Return "?debug"
  = Return {[ "debug" := VStr "undefined" ]}
  ∧ QueryStrings.queryString Return "?debug" "debug"
    = Return (VStr "undefined").
Proof.
  apply (queryStringAsObject_without_equals_sign Return "debug" "debug"
                                                 "undefined");
    done.
Defined.

(** ** [clone], [assign], [assignArray] *)

Section ObjectsFacts.
Import Property Objects.

Lemma put_other_key (o : gmap string value) (k : string) (v : value) :
  k ≠ "__proto__" → put o k v = Some (<[k := v]> o).
Proof.
  intros Hk. unfold put, Property.write, reaches_setter.
  by rewrite bool_decide_false by (by intros [? _]).
Qed.

Lemma set_other_key (o : gmap string value) (k : string) (v : value) :
  k ≠ "__proto__" → Property.write o k v = <[k := v]> o.
Proof.
  intros Hk. unfold Property.write, reaches_setter.
  by rewrite bool_decide_false by (by intros [? _]).
Qed.

Lemma copy_keys_union (target source : gmap string value) :
  source !! "hasOwnProperty" = None →
  source !! "__proto__" = None →
  copy_keys target source = Done (source ∪ target).
Proof.
  intros Hhas Hproto. unfold copy_keys.
  assert (Hfold : ∀ (l : list (string * value)) (t : gmap string value),
    (∀ k v, (k, v) ∈ l → source !! k = Some v) →
    forEach_key t source l.*1 = Done (list_to_map (reverse l) ∪ t)).
  { induction l as [|[k v] l IH]; intros t Hl.
    - cbn. by rewrite (left_id_L ∅ (∪)).
    - cbn [fmap list_fmap forEach_key fst].
      assert (Hk : source !! k = Some v) by (apply Hl; by left).
      unfold keyCloner, hasOwnProperty. rewrite Hhas, Hk.
      rewrite bool_decide_true by eauto.
      rewrite put_other_key by (intros ->; congruence).
      rewrite IH by (intros ???; apply Hl; by right).
      rewrite reverse_cons, list_to_map_app. cbn.
      by rewrite insert_empty, <- (assoc_L (∪)), <- insert_union_singleton_l. }
  rewrite Hfold by (intros k v; apply elem_of_map_to_list).
  do 2 f_equal.
  transitivity (list_to_map (map_to_list source) : gmap string value);
    [|apply list_to_map_to_list].
  symmetry. apply list_to_map_proper; [apply NoDup_fst_map_to_list|].
  symmetry. apply reverse_Permutation.
Qed.

Lemma merge_unions (ms : list (gmap string value)) :
  Forall (λ m, m !! "hasOwnProperty" = None ∧ m !! "__proto__" = None) ms →
  ∀ acc : gmap string value,
    merge acc ms = Done (foldl (λ acc m, m ∪ acc) acc ms).
Proof.
  induction 1 as [|m ms [Hhas Hproto] Hms IH]; intros acc; [done|].
  cbn [merge foldl]. rewrite copy_keys_union by done. apply IH.
Qed.

Lemma find_snoc {A : Type} (p : A → bool) (l : list A) (x : A) :
  List.find p (l ++ [x])
  = match List.find p l with
    | Some y => Some y
    | None => if p x then Some x else None
    end.
Proof.
  induction l as [|y l IH]; [done|]. cbn. by destruct (p y).
Qed.

Lemma unions_lookup_from (k : string) (ms : list (gmap string value)) :
  ∀ acc : gmap string value,
    foldl (λ acc m, m ∪ acc) acc ms !! k
    = match rightmost_with k ms with
      | Some m => m !! k
      | None => acc !! k
      end.
Proof.
  unfold rightmost_with.
  induction ms as [|m ms IH] using rev_ind; intros acc; [done|].
  rewrite foldl_app, reverse_app. change (reverse [m]) with [m].
  cbn [foldl app List.find].
  rewrite lookup_union.
  destruct (m !! k) as [v|] eqn:Hm.
  - rewrite bool_decide_true by eauto. rewrite Hm.
    by destruct (foldl _ acc ms !! k).
  - rewrite bool_decide_false by (by intros [? ?]).
    rewrite (left_id_L None _). apply IH.
Qed.

(** X22: [clone] of objects none of which has an own property named
    [constructor], [hasOwnProperty] or [__proto__]: without objects to
    merge the copy has the properties of the original; with them, a
    property of the copy has the value it has in the rightmost of all the
    objects that has it, and the copy has no other property. *)
Theorem clone_takes_rightmost_value
        (obj : gmap string value) (mergeObjects : list (gmap string value)) :
  Forall ordinary (obj :: mergeObjects) →
  ∃ copy,
    clone obj mergeObjects = Done copy
    ∧ (mergeObjects = [] → copy = obj)
    ∧ ∀ k, copy !! k
           = match rightmost_with k (obj :: mergeObjects) with
             | Some m => m !! k
             | None => None
             end.
Proof.
  intros Hall. apply Forall_cons in Hall as [(Hc & Hh & Hp) Hms].
  assert (Hms' : Forall (λ m, m !! "hasOwnProperty" = None
                              ∧ m !! "__proto__" = None) mergeObjects).
  { eapply Forall_impl; [exact Hms|]. by intros m (_ & ? & ?). }
  unfold clone, construct. rewrite Hc.
  rewrite copy_keys_union by done. rewrite (right_id_L ∅ (∪)).
  rewrite merge_unions by done.
  eexists. split; [reflexivity|]. split; [by intros ->|].
  intros k. rewrite unions_lookup_from.
  unfold rightmost_with. rewrite reverse_cons, find_snoc.
  destruct (List.find _ (reverse mergeObjects)) as [m|]; [done|].
  case_bool_decide as Hk; [done|].
  destruct (obj !! k) eqn:Hobj; [|done]. exfalso. apply Hk. eauto.
Qed.

Context {W : Type}.

(** X23: [assign] with a source that has no property named [__proto__]:
    a key that the source does not have keeps in the target what it had,
    whatever the filter and the mutator do, also when one of them
    throws; without filter and mutator every property of the source is
    assigned and the other properties of the target stay. *)
Theorem assign_leaves_other_keys
        (target : gmap string value) (source : list (string * value))
        (mutator filter : option (callable W)) (w : W) :
  "__proto__" ∉ source.*1 →
  (assign target source mutator filter w).1.1 ≠ Undetermined
  ∧ (∀ k, k ∉ source.*1 →
          (assign target source mutator filter w).1.2 !! k = target !! k)
  ∧ assign target source None None w
    = (Done (), list_to_map (reverse source) ∪ target, w).
Proof.
  intros Hproto. split; [|split].
  - revert target w Hproto. induction source as [|[key value] source IH];
      intros target w Hproto; [done|].
    cbn [fmap list_fmap fst] in Hproto.
    apply not_elem_of_cons in Hproto as [Hkey Hproto].
    cbn [assign].
    destruct filter as [f|].
    + destruct (f VUndefined [VStr key; value] w) as [[r|e] w1]; [|done].
      destruct (truthy r); [|by apply IH].
      destruct mutator as [m|].
      * destruct (m VUndefined [VStr key; value] w1) as [[v|e] w2]; [|done].
        rewrite put_other_key by done. by apply IH.
      * rewrite put_other_key by done. by apply IH.
    + destruct mutator as [m|].
      * destruct (m VUndefined [VStr key; value] w) as [[v|e] w2]; [|done].
        rewrite put_other_key by done. by apply IH.
      * rewrite put_other_key by done. by apply IH.
  - intros k. revert target w Hproto.
    induction source as [|[key value] source IH];
      intros target w Hproto Hk; [done|].
    cbn [fmap list_fmap fst] in Hk, Hproto.
    apply not_elem_of_cons in Hk as [Hne Hk].
    apply not_elem_of_cons in Hproto as [Hkey Hproto].
    cbn [assign].
    destruct filter as [f|].
    + destruct (f VUndefined [VStr key; value] w) as [[r|e] w1]; [|done].
      destruct (truthy r); [|by apply IH].
      destruct mutator as [m|].
      * destruct (m VUndefined [VStr key; value] w1) as [[v|e] w2]; [|done].
        rewrite put_other_key by done.
        rewrite IH by done. by rewrite lookup_insert_ne.
      * rewrite put_other_key by done.
        rewrite IH by done. by rewrite lookup_insert_ne.
    + destruct mutator as [m|].
      * destruct (m VUndefined [VStr key; value] w) as [[v|e] w2]; [|done].
        rewrite put_other_key by done.
        rewrite IH by done. by rewrite lookup_insert_ne.
      * rewrite put_other_key by done.
        rewrite IH by done. by rewrite lookup_insert_ne.
  - revert target Hproto. induction source as [|[key value] source IH];
      intros target Hproto.
    + cbn. by rewrite (left_id_L ∅ (∪)).
    + cbn [fmap list_fmap fst] in Hproto.
      apply not_elem_of_cons in Hproto as [Hkey Hproto].
      cbn [assign]. rewrite put_other_key by done.
      rewrite IH by done. f_equal. f_equal.
      rewrite reverse_cons, list_to_map_app. cbn.
      by rewrite insert_empty, <- (assoc_L (∪)), <- insert_union_singleton_l.
Qed.

Lemma indexed_from_keys (idx : nat) (elements : list value) :
  (indexed_from idx elements).*1 = to_string <$> elements.
Proof.
  unfold indexed_from. apply list_eq. intros i.
  rewrite !list_lookup_fmap, list_lookup_imap.
  by destruct (elements !! i).
Qed.

Lemma indexed_from_lookup (idx : nat) (elements : list value)
      (i : nat) (item : value) :
  elements !! i = Some item →
  (to_string item, VNum (Z.of_nat (idx + i))) ∈ indexed_from idx elements.
Proof.
  intros Hi. apply (list_elem_of_lookup_2 _ i).
  unfold indexed_from. by rewrite list_lookup_imap, Hi.
Qed.

Lemma assignArray_from_stores (arr : value) (valueMutator : option (callable W))
      (rest : list value) :
  harmless valueMutator →
  "__proto__" ∉ to_string <$> rest →
  ∀ (obj : gmap string value) (idx : nat) (w : W),
    ∃ w', assignArray_from obj arr idx rest None valueMutator w
          = (Return (list_to_map (reverse (indexed_from idx rest)) ∪ obj), w').
Proof.
  intros Hvm. induction rest as [|item rest IH]; intros Hproto obj idx w.
  - exists w. cbn. by rewrite (left_id_L ∅ (∪)).
  - cbn [fmap list_fmap] in Hproto.
    apply not_elem_of_cons in Hproto as [Hitem Hproto].
    cbn [assignArray_from]. rewrite set_other_key by done.
    assert (Hnext : ∀ w1,
      ∃ w', assignArray_from (<[to_string item := VNum (Z.of_nat idx)]> obj)
              arr (S idx) rest None valueMutator w1
            = (Return (list_to_map (reverse (indexed_from idx (item :: rest)))
                       ∪ obj), w')).
    { intros w1. destruct (IH Hproto
                              (<[to_string item := VNum (Z.of_nat idx)]> obj)
                              (S idx) w1) as [w' ->].
      exists w'. f_equal. f_equal. unfold indexed_from. cbn [imap].
      rewrite Nat.add_0_r, reverse_cons, list_to_map_app. cbn.
      rewrite insert_empty, <- (assoc_L (∪)), <- insert_union_singleton_l.
      do 3 f_equal.
      apply imap_ext. intros i x _. cbn. by rewrite Nat.add_succ_r. }
    destruct valueMutator as [f|]; [|apply Hnext].
    destruct (Hvm VUndefined [item; VNum (Z.of_nat idx); arr] w)
      as (v & w1 & ->).
    apply Hnext.
Qed.

(** X24: [assignArray] without a [keyMutator], on elements none of which
    has the string [__proto__]: the object maps the string of each
    element to an index at which that string occurs, the last one; the
    values a [valueMutator] returns are stored nowhere. When the strings
    of the elements are pairwise different, looking up the string of an
    element gives the index of that element. *)
Theorem assignArray_stores_indexes
        (arr : value) (elements : list value)
        (valueMutator : option (callable W)) (w : W) :
  harmless valueMutator →
  "__proto__" ∉ to_string <$> elements →
  ∃ w' obj,
    assignArray arr elements None valueMutator w = (Return obj, w')
    ∧ obj = list_to_map (reverse (indexed_from 0 elements))
    ∧ (NoDup (to_string <$> elements) →
       ∀ (i : nat) (item : value),
         elements !! i = Some item →
         obj !! to_string item = Some (VNum (Z.of_nat i))).
Proof.
  intros Hvm Hproto. unfold assignArray.
  destruct (assignArray_from_stores arr valueMutator elements Hvm Hproto
                                    ∅ 0%nat w)
    as [w' Hrun].
  exists w', (list_to_map (reverse (indexed_from 0 elements))).
  split; [by rewrite Hrun, (right_id_L ∅ (∪))|]. split; [done|].
  intros Hnd i item Hi.
  apply elem_of_list_to_map_1.
  - by rewrite fmap_reverse, indexed_from_keys, reverse_Permutation.
  - rewrite elem_of_reverse. by apply (indexed_from_lookup 0).
Qed.

End ObjectsFacts.

Lemma clone_takes_rightmost_value_witness :
  let obj : gmap string value := {["a" := VNum 1]} in
  let more : gmap string value := {["a" := VNum 2]} in
  Forall Objects.ordinary [obj; more]
  ∧ ∃ copy, Objects.clone obj [more] = Objects.Done copy
            ∧ copy !! "a" = Some (VNum 2)
            ∧ copy !! "b" = None.
Proof.
  intros obj more.
  assert (H : Forall Objects.ordinary [obj; more]).
  { repeat constructor. }
  split; [exact H|].
  destruct (clone_takes_rightmost_value obj [more] H)
    as (copy & Hclone & _ & Hlookup).
  exists copy. split; [exact Hclone|].
  split; rewrite Hlookup; reflexivity.
Defined.

Lemma assign_leaves_other_keys_witness :
  ("__proto__" ∉ ([("b", VNum 2)].*1))
  ∧ ("a" ∉ ([("b", VNum 2)].*1))
  ∧ (Objects.assign (W := unit) {["a" := VNum 1]} [("b", VNum 2)]
       (Some (λ _ _ w, (Return (VNum 3), w))) None tt).1.2 !! "a"
    = ({["a" := VNum 1]} : gmap string value) !! "a".
Proof.
  assert (H : ∀ k : string, k ≠ "b" → k ∉ ([("b", VNum 2)].*1)).
  { intros k Hk. cbn. by rewrite list_elem_of_singleton. }
  assert (H1 : "__proto__" ∉ ([("b", VNum 2)].*1))
    by (apply H; discriminate).
  assert (H2 : "a" ∉ ([("b", VNum 2)].*1)) by (apply H; discriminate).
  split; [exact H1|]. split; [exact H2|].
  exact (proj1 (proj2 (assign_leaves_other_keys _ _ _ _ _ H1)) _ H2).
Defined.

Lemma assignArray_stores_indexes_witness :
  Objects.harmless (W := unit) (Some (λ _ _ w, (Return (VStr "x"), w)))
  ∧ ("__proto__" ∉ to_string <$> [VStr "a"; VStr "b"])
  ∧ ∃ w' obj,
      Objects.assignArray (VObj 0) [VStr "a"; VStr "b"] None
        (Some (λ _ _ w, (Return (VStr "x"), w))) tt = (Return obj, w')
      ∧ obj !! "b" = Some (VNum 1).
Proof.
  assert (H : Objects.harmless (W := unit)
                (Some (λ _ _ w, (Return (VStr "x"), w)))).
  { intros this args w. by eexists _, _. }
  assert (Hp : "__proto__" ∉ to_string <$> [VStr "a"; VStr "b"]).
  { cbn. rewrite !not_elem_of_cons. repeat split; try discriminate.
    apply not_elem_of_nil. }
  split; [exact H|]. split; [exact Hp|].
  destruct (assignArray_stores_indexes (VObj 0) [VStr "a"; VStr "b"] _ tt
              H Hp)
    as (w' & obj & Hrun & _ & Hkey).
  exists w', obj. split; [exact Hrun|].
  apply (Hkey (ltac:(vm_compute; repeat constructor;
                     rewrite ?list_elem_of_singleton; try discriminate;
                     try apply not_elem_of_nil)) 1%nat (VStr "b")).
  reflexivity.
Defined.


(** ** [findParentNode] *)

Section DomFacts.
Import Dom.

(** Induction along the chain of parent elements. *)
Lemma parent_chain_ind (P : element → Prop) :
  (∀ e, parentElement e = None → P e) →
  (∀ e p, parentElement e = Some p → P p → P e) →
  ∀ e, P e.
Proof.
  intros Hroot Hstep. fix IH 1.
  intros [n m1 m2 m3 m4 [p|]].
  - apply (Hstep _ p); [reflexivity | apply IH].
  - apply Hroot. reflexivity.
Qed.

(** X25: [findParentNode] with a [Node] as selector never throws, whether or
    not the elements have a matcher: it returns the nearest ancestor that
    is that node, [undefined] when no ancestor is. *)
Theorem findParentNode_with_node_never_throws (node0 s : element) :
  findParentNode node0 (ANode s)
  = Return (List.find (λ p, bool_decide (node p = node s)) (ancestors node0)).
Proof.
  induction node0 as [e Hnone | e p Hsome IH] using parent_chain_ind;
    destruct e as [n m1 m2 m3 m4 op]; cbn in *; subst op; cbn.
  - reflexivity.
  - destruct (bool_decide (node p = node s)); [reflexivity | exact IH].
Qed.

(** X26: [findParentNode] passes over the ancestors for which the condition is
    false and stops at the first one, [p], for which it is not: it returns
    [p] when the condition holds and throws what the condition throws, for
    instance when [p] has no matcher; the ancestors beyond [p] are not
    examined. The node itself is not among those examined. *)
Theorem findParentNode_stops_at_first_decisive
        (node0 p : element) (selector : selector)
        (before after : list element) :
  ancestors node0 = before ++ p :: after →
  Forall (λ q, condition q selector = Return false) before →
  condition p selector ≠ Return false →
  findParentNode node0 selector
  = match condition p selector with
    | Return _ => Return (Some p)
    | Throw e => Throw e
    end.
Proof.
  intros Hchain Hbefore Hp. revert node0 Hchain.
  induction Hbefore as [|q before Hq Hbefore IH]; intros node0 Hchain.
  - destruct node0 as [n m1 m2 m3 m4 [parent|]]; [|discriminate].
    cbn in Hchain. injection Hchain as -> _. cbn [findParentNode parentElement].
    destruct (condition p selector) as [[|]|e]; done.
  - destruct node0 as [n m1 m2 m3 m4 [parent|]]; [|discriminate].
    cbn in Hchain. injection Hchain as -> Hchain.
    cbn [findParentNode parentElement]. rewrite Hq. by apply IH.
Qed.

End DomFacts.

Lemma findParentNode_stops_at_first_decisive_witness :
  let html := Dom.Element 0 None None None None None in
  let body :=
    Dom.Element 1 None None
      (Some (λ v, Return (VBool (bool_decide (v = VStr "body")))))
      None (Some html) in
  let div :=
    Dom.Element 2
      (Some (λ v, Return (VBool (bool_decide (v = VStr "div")))))
      None None None (Some body) in
  let span := Dom.Element 3 None None None None (Some div) in
  Dom.ancestors span = [div] ++ body :: [html]
  ∧ Forall (λ q, Dom.condition q (Dom.Other (VStr "body")) = Return false)
           [div]
  ∧ Dom.condition body (Dom.Other (VStr "body")) ≠ Return false
  ∧ Dom.findParentNode span (Dom.Other (VStr "body")) = Return (Some body).
Proof.
  intros html body div span.
  assert (H1 : Dom.ancestors span = [div] ++ body :: [html]) by reflexivity.
  assert (H2 : Forall (λ q, Dom.condition q (Dom.Other (VStr "body"))
                            = Return false) [div]).
  { repeat constructor. }
  assert (H3 : Dom.condition body (Dom.Other (VStr "body")) ≠ Return false).
  { vm_compute. discriminate. }
  split; [exact H1|]. split; [exact H2|]. split; [exact H3|].
  exact (findParentNode_stops_at_first_decisive span body _ _ _ H1 H2 H3).
Defined.

(** ** [newError] *)

Section ErrorsFacts.
Import Errors.

Lemma truthy_with_char (s : string) (c : ascii) (t : string) :
  truthy (VStr (s +:+ String c t)) = true.
Proof. by destruct s. Qed.

Lemma substr_at_suffix (s t : string) :
  substr_at (s +:+ t) (Z.of_nat (String.length s)) = t.
Proof.
  unfold substr_at.
  destruct (Z.ltb_spec (Z.of_nat (String.length s)) 0) as [?|_]; [lia|].
  rewrite Nat2Z.id. apply substr_from_suffix.
Qed.

Lemma substr_prefix (s t : string) :
  substr (s +:+ t) 0 (Z.of_nat (String.length s)) = s.
Proof. unfold substr. rewrite Nat2Z.id. apply string_substring_prefix. Qed.

Lemma substr_at_after_char (l : string) (c : ascii) (t : string) :
  substr_at (l +:+ String c t) (Z.of_nat (String.length l) + 1) = t.
Proof.
  replace (Z.of_nat (String.length l) + 1)
    with (Z.of_nat (String.length (l +:+ String c ""))).
  2:{ rewrite string_length_app. cbn. lia. }
  replace (l +:+ String c t) with ((l +:+ String c "") +:+ t).
  2:{ by rewrite string_app_assoc, string_app_cons, string_app_nil_l. }
  apply substr_at_suffix.
Qed.

Lemma cleanStack_two_lines (l1 l2 rest : string) :
  occurs newline l1 = false →
  occurs newline l2 = false →
  cleanStack (l1 +:+ String newline (l2 +:+ String newline rest))
  = l1 +:+ String newline rest.
Proof.
  intros H1 H2. unfold cleanStack, indexOf.
  rewrite (indexOf_from_first newline l1 _ H1), Z.add_0_l.
  rewrite substr_prefix, substr_at_after_char.
  rewrite (indexOf_from_first newline l2 _ H2), Z.add_0_l.
  replace (Z.of_nat (String.length l2) + 1 + Z.of_nat (String.length l1))
    with (Z.of_nat (String.length (l1 +:+ String newline l2))).
  2:{ rewrite string_length_app. cbn. lia. }
  rewrite <- string_app_cons, <- string_app_assoc.
  by rewrite substr_at_suffix.
Qed.

(** X27: [newError]: of a stack of three or more lines the second line, the
    one of [newError] itself, is removed, and nothing else is changed. *)
Theorem newError_removes_second_stack_line
        (console_has_error : bool) (message data logData : value)
        (console : list logged) (l1 l2 rest : string) :
  occurs newline l1 = false →
  occurs newline l2 = false →
  stack (newError console_has_error
           (Some (l1 +:+ String newline (l2 +:+ String newline rest)))
           message data logData console).1
  = Some (l1 +:+ String newline rest).
Proof.
  intros H1 H2. unfold newError. cbn [fst stack].
  rewrite truthy_with_char. by rewrite cleanStack_two_lines.
Qed.

(** X28: [newError] with a shorter stack: a stack of two lines is left as it
    is, and a stack of one line is replaced by its last character. *)
Theorem newError_with_short_stack
        (console_has_error : bool) (message data logData : value)
        (console : list logged) (l1 l2 : string) (c : ascii) :
  occurs newline l1 = false →
  occurs newline l2 = false →
  c ≠ newline →
  stack (newError console_has_error (Some (l1 +:+ String newline l2))
           message data logData console).1
  = Some (l1 +:+ String newline l2)
  ∧ stack (newError console_has_error (Some (l1 +:+ String c ""))
             message data logData console).1
    = Some (String c "").
Proof.
  intros H1 H2 Hc. unfold newError. cbn [fst stack].
  rewrite !truthy_with_char. split; f_equal; unfold cleanStack, indexOf.
  - rewrite (indexOf_from_first newline l1 _ H1), Z.add_0_l.
    rewrite substr_prefix, substr_at_after_char.
    rewrite (indexOf_from_absent newline l2 H2).
    replace (-1 + 1 + Z.of_nat (String.length l1))
      with (Z.of_nat (String.length l1)) by lia.
    by rewrite substr_at_suffix.
  - assert (Hs : occurs newline (l1 +:+ String c "") = false).
    { rewrite occurs_app, H1. cbn. rewrite bool_decide_false by done. done. }
    rewrite (indexOf_from_absent newline _ Hs).
    change (-1 + 1) with 0.
    replace (substr_at (l1 +:+ String c "") 0) with (l1 +:+ String c "").
    2:{ symmetry. apply (substr_at_suffix "" (l1 +:+ String c "")). }
    rewrite (indexOf_from_absent newline _ Hs).
    change (-1 + 1 + -1) with (-1).
    unfold substr, substr_at, str_length. cbn [Z.ltb Z.compare].
    rewrite string_length_app. cbn [String.length Z.to_nat String.substring].
    replace (Z.to_nat (Z.max (Z.of_nat (String.length l1 + 1) + -1) 0))
      with (String.length l1) by lia.
    rewrite substr_from_suffix. by destruct l1.
Qed.

End ErrorsFacts.

Lemma newError_removes_second_stack_line_witness :
  TypeNames.occurs Errors.newline "Error: no" = false
  ∧ TypeNames.occurs Errors.newline "  at newError (fossen.js:482)" = false
  ∧ Errors.stack
      (Errors.newError true
         (Some ("Error: no"
                +:+ String Errors.newline
                      ("  at newError (fossen.js:482)"
                       +:+ String Errors.newline "  at main (app.js:1)")))
         (VStr "no") VUndefined VUndefined []).1
    = Some ("Error: no" +:+ String Errors.newline "  at main (app.js:1)").
Proof.
  assert (H1 : TypeNames.occurs Errors.newline "Error: no" = false) by reflexivity.
  assert (H2 : TypeNames.occurs Errors.newline "  at newError (fossen.js:482)" = false)
    by reflexivity.
  split; [exact H1|]. split; [exact H2|].
  exact (newError_removes_second_stack_line _ _ _ _ _ _ _ _ H1 H2).
Defined.

Lemma newError_with_short_stack_witness :
  TypeNames.occurs Errors.newline "Error: n" = false
  ∧ TypeNames.occurs Errors.newline "  at newError" = false
  ∧ "o"%char ≠ Errors.newline
  ∧ Errors.stack
      (Errors.newError true
         (Some ("Error: n" +:+ String Errors.newline "  at newError"))
         (VStr "no") VUndefined VUndefined []).1
    = Some ("Error: n" +:+ String Errors.newline "  at newError")
  ∧ Errors.stack
      (Errors.newError true (Some ("Error: n" +:+ String "o" ""))
         (VStr "no") VUndefined VUndefined []).1
    = Some "o".
Proof.
  assert (H1 : TypeNames.occurs Errors.newline "Error: n" = false)
    by reflexivity.
  assert (H2 : TypeNames.occurs Errors.newline "  at newError" = false)
    by reflexivity.
  assert (H3 : "o"%char ≠ Errors.newline) by discriminate.
  split; [exact H1|]. split; [exact H2|]. split; [exact H3|].
  exact (newError_with_short_stack true (VStr "no") VUndefined
           VUndefined [] _ _ _ H1 H2 H3).
Defined.
